(** * SuperHumanizeEngine (src/super_humanize.py): a shallow embedding

    The engine has four methods: [analyze_burstiness] (variance of the
    per-sentence word counts), [inject_linguistic_noise] (transition
    substitution and filler insertion), [optimize_rhythm] (merging of short
    adjacent sentences) and [process] (the pipeline).

    Python values are modelled as follows.
    - [str] is [string]; a character is a code point below 256.
    - The spaCy pipeline [nlp] is outside the repository: it is a section
      variable giving, for a text, the list of [sent.text] of [doc.sents].
    - The process-wide generator of module [random] is a state threaded
      through a small state monad; the generator itself is a section
      variable.
    - [float] arithmetic is an interface with two instances: exact rational
      arithmetic, and IEEE 754 binary64 as specified by [SpecFloat]. *)

From Stdlib Require Import Bool Arith ZArith QArith Qround Qabs Qpower Qfield Lia Lqa List Ascii String.
From Stdlib Require Import Floats.SpecFloat.
Import ListNotations.

Local Close Scope Q_scope.
Local Open Scope string_scope.
Local Open Scope nat_scope.
Local Open Scope list_scope.

(** ** Python string primitives *)

Module PyStr.

(** [str.isspace] on one character, restricted to code points below 256:
    TAB, LF, VT, FF, CR, FS, GS, RS, US, SPACE, NEL (0x85) and NBSP (0xA0).
    The same set is used by [str.split()], [str.strip()] and by [\s] in a
    [str] pattern of module [re]. *)
Definition is_space (c : ascii) : bool :=
  let n := nat_of_ascii c in
  ((9 <=? n) && (n <=? 13)) || ((28 <=? n) && (n <=? 32))
  || (n =? 133) || (n =? 160).

Definition is_empty (s : string) : bool :=
  match s with EmptyString => true | String _ _ => false end.

(** The word being scanned is emitted when a separator or the end is met. *)
Definition flush (cur : string) : list string :=
  if is_empty cur then [] else [cur].

Fixpoint split_go (cur s : string) : list string :=
  match s with
  | EmptyString => flush cur
  | String c s' =>
      if is_space c then flush cur ++ split_go "" s'
      else split_go (cur ++ String c "") s'
  end.

(** [s.split()]: maximal runs of non-whitespace characters. *)
Definition split (s : string) : list string := split_go "" s.

(** [sep.join(l)]. *)
Definition join (sep : string) (l : list string) : string := String.concat sep l.

(** [s.lstrip()]. *)
Fixpoint lstrip (s : string) : string :=
  match s with
  | EmptyString => ""
  | String c s' => if is_space c then lstrip s' else s
  end.

(** Removal of the trailing characters that satisfy [p]. *)
Fixpoint rstrip_where (p : ascii -> bool) (s : string) : string :=
  match s with
  | EmptyString => ""
  | String c s' =>
      let r := rstrip_where p s' in
      if is_empty r && p c then "" else String c r
  end.

(** [s.rstrip()] and [s.strip()]. *)
Definition rstrip (s : string) : string := rstrip_where is_space s.
Definition strip (s : string) : string := lstrip (rstrip s).

(** [s.rstrip(".")]. *)
Definition rstrip_dot (s : string) : string :=
  rstrip_where (fun c => Ascii.eqb c "."%char) s.

(** [s.startswith(p)] and [s.startswith((p1, ..., pn))]. *)
Definition startswith (s p : string) : bool := String.prefix p s.
Definition startswith_any (s : string) (ps : list string) : bool :=
  existsb (startswith s) ps.

(** The rest of [s] after the prefix [p], when [p] is a prefix of [s]. *)
Fixpoint drop_prefix (p s : string) : option string :=
  match p, s with
  | EmptyString, _ => Some s
  | String a p', String b s' => if Ascii.eqb a b then drop_prefix p' s' else None
  | String _ _, EmptyString => None
  end.

(** The rest of [s] after a match of [(alt1|...|altn)] at position 0: the
    alternatives are tried from left to right. *)
Fixpoint match_alternatives (alts : list string) (s : string) : option string :=
  match alts with
  | [] => None
  | a :: alts' =>
      match drop_prefix a s with
      | Some rest => Some rest
      | None => match_alternatives alts' s
      end
  end.

(** The greedy [,?]. *)
Definition skip_comma (s : string) : string :=
  match s with
  | String c s' => if Ascii.eqb c ","%char then s' else s
  | EmptyString => s
  end.

(** [re.sub(r"^(alt1|...|altn),?\s*", repl, s)] for a replacement without
    backslash: [^] matches at position 0 only, so at most one match is
    replaced; [,?] and [\s*] are greedy and cannot fail. *)
Definition re_sub_opener (alts : list string) (repl s : string) : string :=
  match match_alternatives alts s with
  | Some rest => repl ++ lstrip (skip_comma rest)
  | None => s
  end.

(** [l.insert(idx, x)] for [0 <= idx]; an index beyond the end appends. *)
Definition list_insert {A : Type} (idx : nat) (x : A) (l : list A) : list A :=
  firstn idx l ++ x :: skipn idx l.

End PyStr.

Import PyStr.

(** ** Python float arithmetic

    The operations on [float] that the engine uses.  [float_of_int] is the
    conversion of an [int] operand of a mixed operation, [int_truediv] is
    [/] on two [int], [fsquare x] is [x ** 2] and [fround2 x] is
    [round(x, 2)]. *)

Class PyFloat (F : Type) : Type := {
  float_zero : F;
  float_of_int : Z -> F;
  int_truediv : Z -> Z -> F;
  fadd : F -> F -> F;
  fsub : F -> F -> F;
  fdiv : F -> F -> F;
  fsquare : F -> F;
  fround2 : F -> F
}.

(** *** Exact arithmetic: a float is the rational it denotes *)

(** Rounding of a rational to the nearest integer, ties to the even
    integer. *)
Definition round_half_even (q : Q) : Z :=
  let f := Qfloor q in
  match (q - inject_Z f ?= 1 # 2)%Q with
  | Lt => f
  | Gt => (f + 1)%Z
  | Eq => if Z.even f then f else (f + 1)%Z
  end.

Definition Qround2 (q : Q) : Q :=
  (inject_Z (round_half_even (q * 100)) / 100)%Q.

#[global] Instance exact_float : PyFloat Q := {
  float_zero := 0%Q;
  float_of_int := inject_Z;
  int_truediv := fun a b => (inject_Z a / inject_Z b)%Q;
  fadd := Qplus;
  fsub := Qminus;
  fdiv := Qdiv;
  fsquare := fun x => (x * x)%Q;
  fround2 := Qround2
}.

(** *** IEEE 754 binary64 *)

Module B64.

Definition prec : Z := 53.
Definition emax : Z := 1024.

Definition b64 : Type := spec_float.

Definition of_int (z : Z) : b64 := binary_normalize prec emax z 0 false.

(** The correctly rounded quotient of two integers. A zero divisor raises
    [ZeroDivisionError] in Python; it is a NaN here. *)
Definition truediv (a b : Z) : b64 :=
  let s := xorb (a <? 0)%Z (b <? 0)%Z in
  match a, b with
  | _, Z0 => S754_nan
  | Z0, _ => S754_zero s
  | _, _ =>
      let '(q, e, l) := SFdiv_core_binary prec emax (Z.abs a) 0 (Z.abs b) 0 in
      binary_round_aux prec emax s q e l
  end.

(** The rational that a finite float denotes. *)
Definition to_Q (x : b64) : Q :=
  match x with
  | S754_finite s m e =>
      let v := match e with
               | Zneg p => (Zpos m # Pos.pow 2 p)%Q
               | _ => inject_Z (Zpos m * 2 ^ e)
               end in
      if s then (- v)%Q else v
  | _ => 0%Q
  end.

(** [round(x, 2)]: the value of [x] is rounded to two decimals, ties to
    even, and the decimal is converted back to the nearest float; the sign
    of [x] is kept. Zeros, infinities and NaN round to themselves. *)
Definition round2 (x : b64) : b64 :=
  match x with
  | S754_finite s _ _ =>
      let n := round_half_even (Qabs (to_Q x) * 100) in
      if s then SFopp (truediv n 100) else truediv n 100
  | _ => x
  end.

(** [x ** 2] is [pow(x, 2.0)] of the C library, taken here as the
    correctly rounded product [x * x]. *)
#[global] Instance binary64_float : PyFloat b64 := {
  float_zero := S754_zero false;
  float_of_int := of_int;
  int_truediv := truediv;
  fadd := SFadd prec emax;
  fsub := SFsub prec emax;
  fdiv := SFdiv prec emax;
  fsquare := fun x => SFmul prec emax x x;
  fround2 := round2
}.

End B64.

(** ** The engine *)

Definition Qltb (x y : Q) : bool := (Qnum x * QDen y <? Qnum y * QDen x)%Z.

(** The result of [process]: the dict [{"humanized": ..., "metrics": {...}}]. *)
Record Metrics (F : Type) : Type := {
  initial_burstiness : F;
  final_burstiness : F;
  improvement : F
}.
Arguments initial_burstiness {F} _.
Arguments final_burstiness {F} _.
Arguments improvement {F} _.

Record Result (F : Type) : Type := {
  humanized : string;
  metrics : Metrics F
}.
Arguments humanized {F} _.
Arguments metrics {F} _.

(** [self.transition_variations], a dict with four keys, in insertion order. *)
Definition transition_variations : list (string * list string) :=
  [ ("addition", ["Plus,"; "And also,"; "On top of that,"; "Not to mention,"]);
    ("contrast", ["But honestly,"; "Though,"; "Still,"; "On the flip side,"]);
    ("conclusion", ["Basically,"; "So yeah,"; "In short,"; "All in all,"]);
    ("example", ["Like,"; "For instance,"; "Say,"]) ].

(** [d[key]]; a missing key raises [KeyError] in Python and gives the empty
    list here. *)
Fixpoint dict_get (d : list (string * list string)) (key : string) : list string :=
  match d with
  | [] => []
  | (k, v) :: d' => if String.eqb k key then v else dict_get d' key
  end.

(** [self.filler_words]. *)
Definition filler_words : list string :=
  ["literally"; "basically"; "actually"; "honestly"; "kind of"; "sort of"; "just"].

(** The alternatives of the two patterns, which are also the prefixes that
    [startswith] tests. *)
Definition addition_openers : list string := ["Furthermore"; "Moreover"; "Additionally"].
Definition contrast_openers : list string := ["However"].

(** [len(s.split())]. *)
Definition word_count (s : string) : nat := List.length (split s).

(** [sum(l)] on a list of [int]. *)
Definition sum_int (l : list Z) : Z := fold_left Z.add l 0%Z.

(** [[len(sent.split()) for sent in sents]]. *)
Definition sentence_lengths (sents : list string) : list Z :=
  map (fun sent => Z.of_nat (word_count sent)) sents.

Section Engine.

(** [nlp text] is [[sent.text for sent in nlp(text).sents]]. *)
Variable nlp : string -> list string.

(** *** The burstiness analyzer *)

Section Analyzer.

Context {F : Type} `{PyFloat F}.

(** [sum(xs)] on floats: the additions are made from left to right, from
    the [int] 0. *)
Definition sum_float (l : list F) : F := fold_left fadd l (float_of_int 0).

Definition analyze_burstiness (text : string) : F :=
  let lengths := sentence_lengths (nlp text) in
  match lengths with
  | [] => float_zero
  | _ :: _ =>
      let n := Z.of_nat (List.length lengths) in
      let mean := int_truediv (sum_int lengths) n in
      let variance :=
        fdiv (sum_float (map (fun x => fsquare (fsub (float_of_int x) mean)) lengths))
             (float_of_int n) in
      variance
  end.

End Analyzer.

(** *** The generator of module [random]

    [random g] is [random.random()], a float of [[0, 1)] given by the
    rational it denotes, and [randbelow n g] is [Random._randbelow(n)], an
    [int] of [[0, n)]; both return the next state of the generator. *)

Variable rng : Type.
Variable random : rng -> Q * rng.
Variable randbelow : nat -> rng -> nat * rng.

Definition M (A : Type) : Type := rng -> A * rng.

Definition ret {A : Type} (a : A) : M A := fun g => (a, g).

Definition bind {A B : Type} (m : M A) (k : A -> M B) : M B :=
  fun g => let (a, g') := m g in k a g'.

Notation "x <- m ;; k" := (bind m (fun x => k))
  (at level 61, m at next level, right associativity).

(** [random.choice(seq)] is [seq[self._randbelow(len(seq))]]. An index out
    of range raises [IndexError] in Python and gives [""] here. *)
Definition choice (seq : list string) : M string :=
  i <- randbelow (List.length seq) ;;
  ret (nth i seq "").

(** [random.randint(a, b)] is [a + self._randbelow(b - a + 1)]. *)
Definition randint (a b : nat) : M nat :=
  i <- randbelow (b + 1 - a) ;;
  ret (a + i).

(** [random.random() < p]. The literals 0.1 and 0.3 are given by their
    decimal values: a float of [random.random()] is a multiple of 2^-53,
    and such a float is below the binary64 literal exactly when it is below
    the decimal. *)
Definition random_below (p : Q) : M bool :=
  u <- random ;;
  ret (Qltb u p).

(** *** The noise injector *)

(** Step 1 of the loop body, "Break predictable transitions". *)
Definition substitute_transition (s_text : string) : M string :=
  if startswith_any s_text addition_openers then
    v <- choice (dict_get transition_variations "addition") ;;
    ret (re_sub_opener addition_openers (v ++ " ") s_text)
  else if startswith s_text "However" then
    v <- choice (dict_get transition_variations "contrast") ;;
    ret (re_sub_opener contrast_openers (v ++ " ") s_text)
  else ret s_text.

(** Step 2 of the loop body, "Inject fillers occasionally". *)
Definition insert_filler (s_text : string) : M string :=
  fire <- random_below (1 # 10) ;;
  if fire then
    let words := split s_text in
    if 5 <? List.length words then
      idx <- randint 1 (List.length words - 1) ;;
      filler <- choice filler_words ;;
      ret (join " " (list_insert idx filler words))
    else ret s_text
  else ret s_text.

(** The body of the [for] loop: the text appended to [modified_sentences]. *)
Definition noise_sentence (sent : string) : M string :=
  s_text <- substitute_transition (strip sent) ;;
  insert_filler s_text.

Fixpoint for_each (sentences : list string) : M (list string) :=
  match sentences with
  | [] => ret []
  | sent :: rest =>
      s_text <- noise_sentence sent ;;
      modified <- for_each rest ;;
      ret (s_text :: modified)
  end.

Definition inject_linguistic_noise (text : string) : M string :=
  modified_sentences <- for_each (nlp text) ;;
  ret (join " " modified_sentences).

(** *** The rhythm optimizer *)

(** The condition of the [if] in the [while] loop. [and] evaluates from left
    to right and stops at the first false operand, so the generator is
    consulted only for a pair of short sentences. *)
Definition merge_condition (sents : list string) (i : nat) (curr : string) : M bool :=
  if (i + 1 <? List.length sents)
     && (word_count curr <? 10)
     && (word_count (nth (i + 1) sents "") <? 10)
  then random_below (3 # 10)
  else ret false.

Definition combine (curr next : string) : string :=
  (rstrip_dot curr ++ ", and " ++ strip next)%string.

(** The [while i < len(sents)] loop; each iteration increases [i], so
    [len(sents) - i] iterations are enough. *)
Fixpoint rhythm_loop (fuel : nat) (sents : list string) (i : nat)
    (new_text : list string) : M (list string) :=
  match fuel with
  | O => ret new_text
  | S fuel' =>
      if i <? List.length sents then
        let curr := strip (nth i sents "") in
        merge <- merge_condition sents i curr ;;
        if merge then
          rhythm_loop fuel' sents (i + 2)
            (new_text ++ [combine curr (nth (i + 1) sents "")])
        else rhythm_loop fuel' sents (i + 1) (new_text ++ [curr])
      else ret new_text
  end.

Definition optimize_rhythm (text : string) : M string :=
  let sents := nlp text in
  if List.length sents <? 2 then ret text
  else
    new_text <- rhythm_loop (List.length sents) sents 0 [] ;;
    ret (join " " new_text).

(** *** The pipeline *)

Section Pipeline.

Context {F : Type} `{PyFloat F}.

Definition process (text : string) : M (Result F) :=
  let initial := analyze_burstiness text in
  processed <- inject_linguistic_noise text ;;
  processed <- optimize_rhythm processed ;;
  let final := analyze_burstiness processed in
  ret {| humanized := processed;
         metrics := {| initial_burstiness := fround2 initial;
                       final_burstiness := fround2 final;
                       improvement := fround2 (fsub final initial) |} |}.

End Pipeline.

End Engine.

Arguments ret {rng A} a g /.
Arguments bind {rng A B} m k g /.

(** ** Test doubles for the two collaborators *)

(** A generator that replays a script of raw draws: [randbelow n] reduces
    the next draw modulo [n], [random] gives the next draw in thousandths.
    An exhausted script draws 0. *)
Module ScriptedRandom.

Definition rng : Type := list nat.

Definition random (g : rng) : Q * rng :=
  match g with
  | [] => (0%Q, [])
  | x :: g' => ((Z.of_nat (x mod 1000) # 1000)%Q, g')
  end.

Definition randbelow (n : nat) (g : rng) : nat * rng :=
  match g with
  | [] => (0, [])
  | x :: g' => (x mod n, g')
  end.

End ScriptedRandom.

(** A segmenter that ends a sentence at each full stop, strips the
    sentences and drops the empty ones. *)
Module PeriodSegmenter.

Fixpoint segment_go (cur s : string) : list string :=
  match s with
  | EmptyString => [cur]
  | String c s' =>
      if Ascii.eqb c "."%char then (cur ++ ".")%string :: segment_go "" s'
      else segment_go (cur ++ String c "")%string s'
  end.

Definition nlp (text : string) : list string :=
  filter (fun s => negb (is_empty s)) (map strip (segment_go "" text)).

End PeriodSegmenter.

(** ** Notions used in the statements *)

Fixpoint has_space (s : string) : bool :=
  match s with
  | EmptyString => false
  | String c s' => is_space c || has_space s'
  end.

(** A word: a non-empty string without whitespace. *)
Definition is_word (w : string) : Prop := w <> "" /\ has_space w = false.

(** A text that does not start with whitespace. *)
Definition no_leading_space (s : string) : Prop :=
  match s with
  | EmptyString => True
  | String c _ => is_space c = false
  end.

(** Following the spec's words: the leading whitespace-delimited token of a
    sentence, and the test that it equals an opener, optionally followed by
    a comma. *)
Definition leading_token (s : string) : option string := hd_error (split s).

Definition leading_token_is_opener (openers : list string) (s : string) : bool :=
  match leading_token s with
  | Some tok =>
      existsb (fun o => String.eqb tok o || String.eqb tok (o ++ ",")%string) openers
  | None => false
  end.

(** The units that one pass can emit for a sequence of sentences: each unit
    is one stripped sentence, or two adjacent sentences with fewer than 10
    words each, combined. *)
Inductive units_of : list string -> list string -> Prop :=
  | units_nil : units_of [] []
  | units_single (c : string) (rest us : list string) :
      units_of rest us -> units_of (c :: rest) (strip c :: us)
  | units_merged (c n : string) (rest us : list string) :
      word_count (strip c) < 10 -> word_count n < 10 ->
      units_of rest us ->
      units_of (c :: n :: rest) (combine (strip c) n :: us).

(** The last character of a text satisfies [p]; every character does. *)
Fixpoint ends_with (p : ascii -> bool) (s : string) : bool :=
  match s with
  | EmptyString => false
  | String c s' =>
      match s' with
      | EmptyString => p c
      | String _ _ => ends_with p s'
      end
  end.

Fixpoint all_chars (p : ascii -> bool) (s : string) : bool :=
  match s with
  | EmptyString => true
  | String c s' => p c && all_chars p s'
  end.

Definition is_dot (c : ascii) : bool := Ascii.eqb c "."%char.

(** A generator whose [random.random()] is always 0.5 and whose
    [_randbelow] is always 0. *)
Module ConstantRandom.

Definition rng : Type := unit.
Definition random (g : rng) : Q * rng := ((1 # 2)%Q, g).
Definition randbelow (n : nat) (g : rng) : nat * rng := (0, g).

End ConstantRandom.

Module Variance.

Local Open Scope Q_scope.

(** Following the spec's words: the mean of a sequence, and the population
    variance [mean((count_i - mean)^2)] of a sequence of counts, which
    divides by the number of counts. *)
Definition Qsum (l : list Q) : Q := fold_right Qplus 0 l.

Definition mean (l : list Q) : Q := Qsum l / inject_Z (Z.of_nat (List.length l)).

Definition population_variance (counts : list Z) : Q :=
  let xs := map inject_Z counts in
  mean (map (fun x => (x - mean xs) ^ 2) xs).

(** The sample variance, which divides by [N - 1]. *)
Definition sample_variance (counts : list Z) : Q :=
  let xs := map inject_Z counts in
  Qsum (map (fun x => (x - mean xs) ^ 2) xs)
  / inject_Z (Z.of_nat (List.length xs) - 1).

End Variance.

Import Variance.

Module B64Sign.

Import B64.

(** A float that is not a NaN and has the sign [s]. *)
Definition signed (s : bool) (x : b64) : Prop :=
  match x with
  | S754_nan => False
  | S754_zero s' | S754_infinity s' | S754_finite s' _ _ => s' = s
  end.

Definition not_nan (x : b64) : Prop := x <> S754_nan.

(** Zero or finite, of any sign. *)
Definition is_finite (x : b64) : Prop :=
  match x with
  | S754_zero _ | S754_finite _ _ _ => True
  | _ => False
  end.

Definition sign_bit (x : b64) : bool :=
  match x with
  | S754_zero s | S754_infinity s | S754_finite s _ _ => s
  | S754_nan => false
  end.

(** The number of hundredths that [round(x, 2)] keeps of a float: the
    rounding to the nearest integer, ties to even, of 100 times its value,
    with its sign. *)
Definition hundredths (x : b64) : Z :=
  let n := round_half_even (Qabs (to_Q x) * 100) in
  if sign_bit x then (- n)%Z else n.

(** The float nearest to [n / 100], or to its opposite. *)
Definition of_hundredths (negative : bool) (n : Z) : b64 :=
  if negative then SFopp (truediv n 100) else truediv n 100.

(** The power of 2 of an integer exponent, and the value of a mantissa at
    an exponent. *)
Definition bpow (e : Z) : Q := (2 ^ e)%Q.

Definition F2Q (m e : Z) : Q := (inject_Z m * bpow e)%Q.

(** A float that is zero or finite and below 2^40 in absolute value. *)
Definition moderate (x : b64) : Prop :=
  is_finite x /\ (Qabs (to_Q x) < inject_Z (2 ^ 39))%Q.

End B64Sign.

(** ** Facts about the string primitives *)

Module PyStrFacts.

Lemma append_assoc (a b c : string) : ((a ++ b) ++ c = a ++ (b ++ c))%string.
Proof. induction a as [|x a IH]; simpl; [reflexivity | now rewrite IH]. Qed.

Lemma append_nil_r (a : string) : (a ++ "" = a)%string.
Proof. induction a as [|x a IH]; simpl; [reflexivity | now rewrite IH]. Qed.

Lemma append_snoc (a : string) (c : ascii) (b : string) :
  ((a ++ String c "") ++ b = a ++ String c b)%string.
Proof. now rewrite append_assoc. Qed.

Lemma has_space_append (a b : string) :
  has_space (a ++ b) = has_space a || has_space b.
Proof.
  induction a as [|x a IH]; simpl; [reflexivity|].
  now rewrite IH, orb_assoc.
Qed.

Lemma is_empty_true (s : string) : is_empty s = true -> s = "".
Proof. destruct s; [reflexivity | discriminate]. Qed.

Lemma is_empty_snoc (a : string) (c : ascii) : is_empty (a ++ String c "") = false.
Proof. destruct a; reflexivity. Qed.

(** A separator closes the word being scanned and starts afresh. *)
Lemma split_go_separator (a b cur : string) (sp : ascii) :
  is_space sp = true ->
  split_go cur (a ++ String sp b) = split_go cur a ++ split_go "" b.
Proof.
  intros Hsp. revert cur.
  induction a as [|c a IH]; intros cur; simpl.
  - now rewrite Hsp.
  - destruct (is_space c).
    + now rewrite IH, app_assoc.
    + apply IH.
Qed.

(** A string without whitespace extends the word being scanned. *)
Lemma split_go_no_space (w cur : string) :
  has_space w = false -> split_go cur w = flush (cur ++ w).
Proof.
  revert cur. induction w as [|c w IH]; intros cur Hw; simpl in *.
  - now rewrite append_nil_r.
  - apply orb_false_elim in Hw as [Hc Hw].
    rewrite Hc, IH by assumption. now rewrite append_snoc.
Qed.

Lemma split_word (w : string) : is_word w -> split w = [w].
Proof.
  intros [Hne Hw]. unfold split. rewrite split_go_no_space by assumption.
  simpl. destruct w; [contradiction | reflexivity].
Qed.

Lemma split_go_words (s cur : string) :
  has_space cur = false -> Forall is_word (split_go cur s).
Proof.
  assert (Hflush : forall cur, has_space cur = false -> Forall is_word (flush cur)).
  { intros c Hc. unfold flush. destruct (is_empty c) eqn:E; constructor.
    - split; [|assumption]. intros ->. discriminate.
    - constructor. }
  revert cur. induction s as [|c s IH]; intros cur Hcur; simpl.
  - now apply Hflush.
  - destruct (is_space c) eqn:Hc.
    + apply Forall_app. split; [now apply Hflush | now apply IH].
    + apply IH. rewrite has_space_append. simpl. now rewrite Hcur, Hc.
Qed.

Lemma split_words (s : string) : Forall is_word (split s).
Proof. now apply split_go_words. Qed.

Lemma space_is_space : is_space " "%char = true.
Proof. reflexivity. Qed.

(** Splitting a text joined with single spaces splits each part. *)
Lemma split_join (l : list string) : split (join " " l) = flat_map split l.
Proof.
  induction l as [|x l IH]; [reflexivity|].
  destruct l as [|y l].
  - simpl. now rewrite app_nil_r.
  - change (join " " (x :: y :: l)) with (x ++ String " " (join " " (y :: l)))%string.
    unfold split at 1. rewrite split_go_separator by apply space_is_space.
    fold (split x). fold (split (join " " (y :: l))). now rewrite IH.
Qed.

Lemma flat_map_split_words (l : list string) :
  Forall is_word l -> flat_map split l = l.
Proof.
  induction 1 as [|w l Hw _ IH]; [reflexivity|].
  simpl. now rewrite split_word, IH.
Qed.

(** The words of a sentence rebuilt with [x] inserted among its words. *)
Lemma split_join_insert (s x : string) (idx : nat) :
  split (join " " (list_insert idx x (split s)))
  = firstn idx (split s) ++ split x ++ skipn idx (split s).
Proof.
  rewrite split_join. unfold list_insert.
  rewrite flat_map_app. simpl.
  pose proof (split_words s) as Hw.
  rewrite <- (firstn_skipn idx (split s)) in Hw.
  apply Forall_app in Hw as [Hfirst Hrest].
  now rewrite !flat_map_split_words.
Qed.

(** [drop_prefix] decides whether a string starts with another. *)
Lemma drop_prefix_Some (p s rest : string) :
  drop_prefix p s = Some rest <-> s = (p ++ rest)%string.
Proof.
  revert s. induction p as [|a p IH]; intros s; simpl.
  - split; [now intros [= ->] | now intros ->].
  - destruct s as [|b s]; [split; discriminate|].
    destruct (Ascii.eqb_spec a b) as [->|Hab].
    + rewrite IH. split; [now intros -> | now intros [= ->]].
    + split; [discriminate | intros [= -> _]; contradiction].
Qed.

Lemma prefix_drop_prefix (p s : string) :
  String.prefix p s = true <-> exists rest, drop_prefix p s = Some rest.
Proof.
  revert s. induction p as [|a p IH]; intros s.
  - destruct s; simpl; split; eauto.
  - destruct s as [|b s]; simpl; [split; [discriminate | intros [? [=]]]|].
    destruct (Ascii.ascii_dec a b) as [->|Hab].
    + rewrite Ascii.eqb_refl. apply IH.
    + apply Ascii.eqb_neq in Hab as ->. split; [discriminate | intros [? [=]]].
Qed.

Lemma startswith_append (s p : string) :
  startswith s p = true <-> exists rest, s = (p ++ rest)%string.
Proof.
  unfold startswith. rewrite prefix_drop_prefix.
  split; intros [rest Hr]; exists rest; now apply drop_prefix_Some.
Qed.

End PyStrFacts.

Import PyStrFacts.

(** ** The burstiness analyzer *)

Module AnalyzerFacts.

Local Open Scope Q_scope.

Lemma fold_left_Qplus (l : list Q) (a : Q) : fold_left Qplus l a == a + Qsum l.
Proof.
  revert a. induction l as [|x l IH]; intros a; simpl.
  - ring.
  - rewrite IH. ring.
Qed.

Lemma fold_left_Zplus (l : list Z) (a : Z) :
  fold_left Z.add l a = (a + fold_right Z.add 0 l)%Z.
Proof.
  revert a. induction l as [|x l IH]; intros a; simpl.
  - lia.
  - rewrite IH. lia.
Qed.

Lemma inject_Z_sum_int (l : list Z) : inject_Z (sum_int l) == Qsum (map inject_Z l).
Proof.
  unfold sum_int. rewrite fold_left_Zplus. simpl.
  induction l as [|x l IH]; simpl; [reflexivity|].
  rewrite inject_Z_plus, IH. reflexivity.
Qed.

Lemma Qsum_ext {A : Type} (f g : A -> Q) (l : list A) :
  (forall x, f x == g x) -> Qsum (map f l) == Qsum (map g l).
Proof.
  intros Hfg. induction l as [|x l IH]; simpl; [reflexivity|].
  now rewrite Hfg, IH.
Qed.

Lemma Qsum_nonneg (l : list Q) : Forall (fun x => 0 <= x) l -> 0 <= Qsum l.
Proof.
  induction 1 as [|x l Hx _ IH]; simpl; [apply Qle_refl|].
  apply (Qplus_le_compat 0 x 0 (Qsum l)); assumption.
Qed.

(** In exact arithmetic, the value that the code computes for a list of
    lengths. *)
Lemma variance_exact (lengths : list Z) :
  let n := Z.of_nat (List.length lengths) in
  let m := int_truediv (F:=Q) (sum_int lengths) n in
  fdiv (sum_float (map (fun x => fsquare (fsub (float_of_int x) m)) lengths))
       (float_of_int n)
  == population_variance lengths.
Proof.
  cbn -[sum_int]. unfold sum_float, population_variance, mean.
  rewrite fold_left_Qplus, !length_map, map_map. cbn.
  assert (Hm : inject_Z (sum_int lengths) / inject_Z (Z.of_nat (List.length lengths))
               == Qsum (map inject_Z lengths) / inject_Z (Z.of_nat (List.length lengths))).
  { now rewrite inject_Z_sum_int. }
  apply Qmult_comp; [|reflexivity].
  rewrite Qplus_0_l. apply Qsum_ext. intros x.
  rewrite Hm. simpl. ring.
Qed.

Lemma population_variance_nonneg (counts : list Z) : 0 <= population_variance counts.
Proof.
  unfold population_variance, mean, Qdiv.
  apply Qmult_le_0_compat.
  - apply Qsum_nonneg, Forall_forall. intros y Hy.
    apply in_map_iff in Hy as [x [<- _]]. apply Qsqr_nonneg.
  - apply Qinv_le_0_compat. change 0 with (inject_Z 0).
    rewrite <- Zle_Qle. lia.
Qed.

(** The analyzer in exact arithmetic is the population variance of the
    sentence lengths, also when there is no sentence. *)
Lemma analyze_exact (nlp : string -> list string) (text : string) :
  analyze_burstiness (F:=Q) nlp text == population_variance (sentence_lengths (nlp text)).
Proof.
  unfold analyze_burstiness.
  destruct (sentence_lengths (nlp text)) as [|x l] eqn:E.
  - reflexivity.
  - apply variance_exact.
Qed.

End AnalyzerFacts.

Import AnalyzerFacts.

(** C1. [analyze_burstiness] returns the population variance of the
    per-sentence word counts, which divides by the number of sentences N and
    not by N - 1; it returns 0.0 when there is no sentence; for the word
    counts 5, 5, 5 it returns 0.0 and for 2, 8 it returns 9.0. The general
    statement is in exact arithmetic; the three values are also those of the
    binary64 computation. *)
Theorem analyze_burstiness_population_variance
    (nlp : string -> list string) (text : string) :
  let counts := sentence_lengths (nlp text) in
  (analyze_burstiness (F:=Q) nlp text == population_variance counts)%Q
  /\ (counts = [] ->
      analyze_burstiness (F:=Q) nlp text = 0%Q
      /\ analyze_burstiness (F:=B64.b64) nlp text = S754_zero false)
  /\ (counts = [5; 5; 5]%Z ->
      (analyze_burstiness (F:=Q) nlp text == 0)%Q
      /\ analyze_burstiness (F:=B64.b64) nlp text = S754_zero false)
  /\ (counts = [2; 8]%Z ->
      (analyze_burstiness (F:=Q) nlp text == 9)%Q
      /\ analyze_burstiness (F:=B64.b64) nlp text = B64.of_int 9
      /\ (sample_variance counts == 18)%Q).
Proof.
  intros counts. split; [apply analyze_exact|].
  unfold analyze_burstiness. fold counts.
  repeat split; rewrite H; reflexivity.
Qed.

(** The three cases of C1 on concrete texts. *)
Lemma analyze_burstiness_population_variance_witness :
  (sentence_lengths (PeriodSegmenter.nlp "") = []
   /\ analyze_burstiness (F:=B64.b64) PeriodSegmenter.nlp "" = S754_zero false)
  /\ (sentence_lengths (PeriodSegmenter.nlp "a b c d e. f g h i j. k l m n o.") = [5; 5; 5]%Z
      /\ analyze_burstiness (F:=B64.b64) PeriodSegmenter.nlp
           "a b c d e. f g h i j. k l m n o." = S754_zero false)
  /\ (sentence_lengths (PeriodSegmenter.nlp "a b. c d e f g h i j.") = [2; 8]%Z
      /\ analyze_burstiness (F:=B64.b64) PeriodSegmenter.nlp "a b. c d e f g h i j."
         = B64.of_int 9).
Proof.
  split; [|split].
  - split; [reflexivity|].
    destruct (analyze_burstiness_population_variance PeriodSegmenter.nlp "")
      as (_ & H0 & _ & _).
    apply H0. reflexivity.
  - split; [reflexivity|].
    destruct (analyze_burstiness_population_variance PeriodSegmenter.nlp
                "a b c d e. f g h i j. k l m n o.") as (_ & _ & H5 & _).
    apply H5. reflexivity.
  - split; [reflexivity|].
    destruct (analyze_burstiness_population_variance PeriodSegmenter.nlp
                "a b. c d e f g h i j.") as (_ & _ & _ & H2).
    apply H2. reflexivity.
Defined.

(** ** Signs in binary64 arithmetic *)

Module B64Facts.

Import B64 B64Sign.

Local Open Scope Z_scope.

Lemma signed_not_nan (s : bool) (x : b64) : signed s x -> not_nan x.
Proof. intros H ->. exact H. Qed.

Lemma shr_1_nonneg (mrs : shr_record) : 0 <= shr_m mrs -> 0 <= shr_m (shr_1 mrs).
Proof.
  destruct mrs as [m r s]. simpl.
  destruct m as [|[p|p|]|p]; simpl; lia.
Qed.

Lemma iter_shr_1_nonneg (p : positive) (mrs : shr_record) :
  0 <= shr_m mrs -> 0 <= shr_m (iter_pos shr_1 p mrs).
Proof.
  revert mrs. induction p as [p IH|p IH|]; intros mrs H; simpl.
  - apply IH, IH, shr_1_nonneg, H.
  - apply IH, IH, H.
  - apply shr_1_nonneg, H.
Qed.

Lemma shr_fexp_nonneg (m e : Z) (l : location) :
  0 <= m -> 0 <= shr_m (fst (shr_fexp prec emax m e l)).
Proof.
  intros Hm. unfold shr_fexp, shr.
  assert (H0 : 0 <= shr_m (shr_record_of_loc m l)).
  { destruct l as [|[ | | ]]; exact Hm. }
  destruct (fexp prec emax (Zdigits2 m + e) - e) as [|p|p]; simpl; try exact H0.
  now apply iter_shr_1_nonneg.
Qed.

Lemma round_nearest_even_nonneg (m : Z) (l : location) :
  0 <= m -> 0 <= round_nearest_even m l.
Proof.
  intros Hm. destruct l as [|[ | | ]]; simpl; try lia.
  destruct (Z.even m); lia.
Qed.

(** Rounding keeps the sign and never gives a NaN. *)
Lemma binary_round_aux_signed (s : bool) (m e : Z) (l : location) :
  0 <= m -> signed s (binary_round_aux prec emax s m e l).
Proof.
  intros Hm. unfold binary_round_aux.
  pose proof (shr_fexp_nonneg m e l Hm) as H1.
  destruct (shr_fexp prec emax m e l) as [mrs' e'] eqn:E1. simpl in H1.
  pose proof (shr_fexp_nonneg _ e' loc_Exact
                (round_nearest_even_nonneg _ (loc_of_shr_record mrs') H1)) as H2.
  destruct (shr_fexp prec emax _ e' loc_Exact) as [mrs'' e''] eqn:E2. simpl in H2.
  destruct (shr_m mrs'') as [|p|p].
  - exact eq_refl.
  - destruct (e'' <=? emax - prec); exact eq_refl.
  - lia.
Qed.

Lemma binary_round_signed (s : bool) (m : positive) (e : Z) :
  signed s (binary_round prec emax s m e).
Proof.
  unfold binary_round.
  destruct (shl_align m e _) as [mz ez].
  apply binary_round_aux_signed. lia.
Qed.

Lemma binary_normalize_not_nan (m e : Z) : not_nan (binary_normalize prec emax m e false).
Proof.
  destruct m as [|p|p]; simpl.
  - discriminate.
  - eapply signed_not_nan, binary_round_signed.
  - eapply signed_not_nan, binary_round_signed.
Qed.

Lemma SFdiv_core_binary_nonneg (m1 e1 m2 e2 : Z) :
  0 <= m1 -> 0 < m2 ->
  0 <= fst (fst (SFdiv_core_binary prec emax m1 e1 m2 e2)).
Proof.
  intros H1 H2. unfold SFdiv_core_binary.
  set (sh := e1 - e2 - _).
  set (m' := match sh with Z0 => m1 | Zpos _ => Z.shiftl m1 sh | Zneg _ => 0 end).
  assert (Hm' : 0 <= m').
  { subst m'. destruct sh; try lia. now apply Z.shiftl_nonneg. }
  pose proof (Z.div_pos m' m2 Hm' H2) as Hq.
  unfold Z.div in Hq. destruct (Z.div_eucl m' m2) as [q r]. exact Hq.
Qed.

(** The square of a float that is not a NaN is not a NaN and has the sign
    of a positive number. *)
Lemma SFmul_self_signed (x : b64) : not_nan x -> signed false (SFmul prec emax x x).
Proof.
  intros Hx. destruct x as [s|s| |s m e]; simpl.
  - apply xorb_nilpotent.
  - apply xorb_nilpotent.
  - now apply Hx.
  - rewrite xorb_nilpotent. apply binary_round_aux_signed. lia.
Qed.

Lemma SFadd_signed_false (x y : b64) :
  signed false x -> signed false y -> signed false (SFadd prec emax x y).
Proof.
  destruct x as [sx|sx| |sx mx ex]; destruct y as [sy|sy| |sy my ey];
    simpl; intros Hx Hy; subst; try assumption; try reflexivity.
  unfold cond_Zopp. cbn [Z.add binary_normalize]. apply binary_round_signed.
Qed.

Lemma SFsub_not_nan (x y : b64) :
  is_finite x -> not_nan y -> not_nan (SFsub prec emax x y).
Proof.
  destruct x as [sx|sx| |sx mx ex]; destruct y as [sy|sy| |sy my ey];
    simpl; intros Hx Hy; try contradiction; try discriminate;
    try (now exfalso; apply Hy).
  - destruct sx, sy; discriminate.
  - apply binary_normalize_not_nan.
Qed.

Lemma SFdiv_signed_false (x y : b64) :
  signed false x -> signed false y -> is_finite y -> y <> S754_zero false ->
  signed false (SFdiv prec emax x y).
Proof.
  destruct x as [sx|sx| |sx mx ex]; destruct y as [sy|sy| |sy my ey];
    simpl; intros Hx Hy Hf Hz; subst; try contradiction; try reflexivity.
  pose proof (SFdiv_core_binary_nonneg (Zpos mx) ex (Zpos my) ey) as Hq.
  destruct (SFdiv_core_binary prec emax (Zpos mx) ex (Zpos my) ey) as [[q e] l].
  apply binary_round_aux_signed. apply Hq; lia.
Qed.

Lemma truediv_signed_false (a b : Z) : 0 <= a -> 0 < b -> signed false (truediv a b).
Proof.
  intros Ha Hb. unfold truediv.
  assert (Hs : xorb (a <? 0) (b <? 0) = false).
  { destruct (Z.ltb_spec a 0), (Z.ltb_spec b 0); try lia. reflexivity. }
  rewrite Hs.
  destruct a as [|a|a]; destruct b as [|b|b]; try lia; try reflexivity.
  pose proof (SFdiv_core_binary_nonneg (Z.abs (Zpos a)) 0 (Z.abs (Zpos b)) 0) as Hq.
  destruct (SFdiv_core_binary prec emax (Z.abs (Zpos a)) 0 (Z.abs (Zpos b)) 0) as [[q e] l].
  apply binary_round_aux_signed. apply Hq; simpl; lia.
Qed.

(** *** Conversion of an integer below 2^53 *)

Lemma digits2_pos_lower (p : positive) : 2 ^ (Zpos (digits2_pos p) - 1) <= Zpos p.
Proof.
  induction p as [p IH|p IH|]; simpl digits2_pos.
  - rewrite Pos2Z.inj_succ.
    replace (Z.succ (Zpos (digits2_pos p)) - 1) with (Z.succ (Zpos (digits2_pos p) - 1)) by lia.
    rewrite Z.pow_succ_r by lia. lia.
  - rewrite Pos2Z.inj_succ.
    replace (Z.succ (Zpos (digits2_pos p)) - 1) with (Z.succ (Zpos (digits2_pos p) - 1)) by lia.
    rewrite Z.pow_succ_r by lia. lia.
  - simpl. lia.
Qed.

Lemma digits2_pos_bound (p : positive) : Zpos p < 2 ^ 53 -> Zpos (digits2_pos p) <= 53.
Proof.
  intros Hp. pose proof (digits2_pos_lower p) as Hl.
  destruct (Z.le_gt_cases (Zpos (digits2_pos p)) 53) as [H|H]; [exact H|].
  assert (2 ^ 53 <= 2 ^ (Zpos (digits2_pos p) - 1)) by (apply Z.pow_le_mono_r; lia).
  lia.
Qed.

Lemma digits2_pos_iter_xO (k p : positive) :
  Zpos (digits2_pos (Pos.iter xO p k)) = Zpos (digits2_pos p) + Zpos k.
Proof.
  induction k as [|k IH] using Pos.peano_ind.
  - simpl. lia.
  - rewrite Pos.iter_succ. simpl digits2_pos. lia.
Qed.

(** A mantissa that is already at the exponent of its format is kept. *)
Lemma binary_round_aux_canonical (s : bool) (m : positive) (e : Z) :
  fexp prec emax (Zpos (digits2_pos m) + e) = e -> e <= emax - prec ->
  binary_round_aux prec emax s (Zpos m) e loc_Exact = S754_finite s m e.
Proof.
  intros Hc He. unfold binary_round_aux, shr_fexp.
  cbn [Zdigits2 shr_record_of_loc]. rewrite Hc, Z.sub_diag.
  cbn [shr shr_m loc_of_shr_record round_nearest_even Zdigits2 shr_record_of_loc].
  rewrite Hc, Z.sub_diag. cbn [shr shr_m].
  apply Z.leb_le in He. now rewrite He.
Qed.

Lemma of_int_pos_finite (p : positive) :
  Zpos p < 2 ^ 53 -> exists m e, of_int (Zpos p) = S754_finite false m e.
Proof.
  intros Hp. apply digits2_pos_bound in Hp.
  unfold of_int. simpl binary_normalize. unfold binary_round.
  assert (Hf : fexp prec emax (Zpos (digits2_pos p) + 0) = Zpos (digits2_pos p) - 53).
  { unfold fexp, emin, prec, emax. lia. }
  rewrite Hf. unfold shl_align.
  destruct (Zpos (digits2_pos p) - 53 - 0) as [|k|k] eqn:Ek; try lia.
  - eexists _, _. apply binary_round_aux_canonical.
    + unfold fexp, emin, prec, emax. lia.
    + unfold prec, emax. lia.
  - eexists _, _. apply binary_round_aux_canonical.
    + rewrite digits2_pos_iter_xO. unfold fexp, emin, prec, emax. lia.
    + unfold prec, emax. lia.
Qed.

Lemma of_int_small (z : Z) :
  0 <= z < 2 ^ 53 -> signed false (of_int z) /\ is_finite (of_int z).
Proof.
  intros [H0 H1]. destruct z as [|p|p]; try lia.
  - split; exact I || reflexivity.
  - destruct (of_int_pos_finite p H1) as (m & e & ->). split; exact I || reflexivity.
Qed.

Lemma of_int_pos_nonzero (z : Z) : 0 < z < 2 ^ 53 -> of_int z <> S754_zero false.
Proof.
  intros [H0 H1]. destruct z as [|p|p]; try lia.
  destruct (of_int_pos_finite p H1) as (m & e & ->). discriminate.
Qed.

(** A float that is not a NaN and has the sign of a positive number is
    0.0 or greater. *)
Lemma signed_false_leb (x : b64) : signed false x -> SFleb (S754_zero false) x = true.
Proof. destruct x as [s|s| |s m e]; simpl; intros H; subst; try reflexivity; contradiction. Qed.

Lemma fold_left_SFadd_signed (l : list b64) (a : b64) :
  Forall (signed false) l -> signed false a ->
  signed false (fold_left (SFadd prec emax) l a).
Proof.
  intros Hl. revert a. induction Hl as [|x l Hx _ IH]; intros a Ha; simpl.
  - exact Ha.
  - apply IH. now apply SFadd_signed_false.
Qed.

Lemma sum_int_nonneg (l : list Z) : Forall (fun x => 0 <= x) l -> 0 <= sum_int l.
Proof.
  intros Hl. unfold sum_int.
  assert (H : forall a, 0 <= a -> 0 <= fold_left Z.add l a).
  { induction Hl as [|x l Hx _ IH]; intros a Ha; simpl; [exact Ha|]. apply IH. lia. }
  apply H. lia.
Qed.

Lemma sentence_lengths_nonneg (sents : list string) :
  Forall (fun x => 0 <= x) (sentence_lengths sents).
Proof.
  unfold sentence_lengths. apply Forall_forall. intros x Hx.
  apply in_map_iff in Hx as [s [<- _]]. lia.
Qed.

(** The binary64 value that the code computes for a non-empty list of
    lengths below 2^53 is not a NaN and is not negative. *)
Lemma variance_b64_signed (lengths : list Z) :
  let n := Z.of_nat (List.length lengths) in
  let m := truediv (sum_int lengths) n in
  lengths <> [] ->
  Forall (fun x => 0 <= x) lengths ->
  Forall (fun x => x < 2 ^ 53) lengths ->
  n < 2 ^ 53 ->
  signed false
    (SFdiv prec emax
       (fold_left (SFadd prec emax)
          (map (fun x => SFmul prec emax (SFsub prec emax (of_int x) m)
                                         (SFsub prec emax (of_int x) m)) lengths)
          (of_int 0))
       (of_int n)).
Proof.
  intros n m Hne H0 H53 Hn.
  assert (Hnpos : 0 < n).
  { subst n. destruct lengths; [contradiction | simpl; lia]. }
  assert (Hm : not_nan m).
  { eapply signed_not_nan, truediv_signed_false; [now apply sum_int_nonneg | exact Hnpos]. }
  destruct (of_int_small n) as [Hns Hnf]; [lia|].
  apply SFdiv_signed_false; try assumption.
  - apply fold_left_SFadd_signed; [|reflexivity].
    apply Forall_forall. intros y Hy.
    apply in_map_iff in Hy as [x [<- Hx]].
    apply SFmul_self_signed, SFsub_not_nan; [|exact Hm].
    rewrite Forall_forall in H0, H53.
    apply of_int_small. split; [now apply H0 | now apply H53].
  - apply of_int_pos_nonzero. lia.
Qed.

End B64Facts.

(** C9. [analyze_burstiness] returns a value that is 0.0 or greater. In
    exact arithmetic this holds for every text and every segmentation; in
    binary64 it holds whenever the word counts and the number of sentences
    are below 2^53, where the result is never a NaN. *)
Theorem analyze_burstiness_nonneg (nlp : string -> list string) (text : string) :
  (0 <= analyze_burstiness (F:=Q) nlp text)%Q
  /\ (Forall (fun x => x < 2 ^ 53)%Z (sentence_lengths (nlp text)) ->
      (Z.of_nat (List.length (nlp text)) < 2 ^ 53)%Z ->
      SFleb (S754_zero false) (analyze_burstiness (F:=B64.b64) nlp text) = true).
Proof.
  split.
  - rewrite analyze_exact. apply population_variance_nonneg.
  - intros H53 Hn. apply B64Facts.signed_false_leb.
    unfold analyze_burstiness.
    pose proof (B64Facts.sentence_lengths_nonneg (nlp text)) as H0.
    assert (Hlen : List.length (sentence_lengths (nlp text)) = List.length (nlp text))
      by apply length_map.
    destruct (sentence_lengths (nlp text)) as [|x l] eqn:E; [reflexivity|].
    apply (B64Facts.variance_b64_signed (x :: l)); try assumption.
    + discriminate.
    + now rewrite Hlen.
Qed.

(** C9 on a text of two sentences with 2 and 8 words. *)
Lemma analyze_burstiness_nonneg_witness :
  SFleb (S754_zero false)
    (analyze_burstiness (F:=B64.b64) PeriodSegmenter.nlp "a b. c d e f g h i j.") = true.
Proof.
  apply (analyze_burstiness_nonneg PeriodSegmenter.nlp "a b. c d e f g h i j.").
  - repeat constructor.
  - reflexivity.
Defined.

(** ** Rounding to the nearest integer *)

Module RoundFacts.

Local Open Scope Q_scope.

Lemma round_half_even_error (q : Q) :
  - (1 # 2) <= inject_Z (round_half_even q) - q <= 1 # 2.
Proof.
  unfold round_half_even.
  pose proof (Qfloor_le q) as Hlo. pose proof (Qlt_floor q) as Hhi.
  rewrite inject_Z_plus in Hhi. change (inject_Z 1) with 1 in Hhi.
  destruct (q - inject_Z (Qfloor q) ?= 1 # 2) eqn:E.
  - apply Qeq_alt in E.
    destruct (Z.even (Qfloor q)); [|rewrite inject_Z_plus; change (inject_Z 1) with 1]; lra.
  - apply Qlt_alt in E. lra.
  - apply Qgt_alt in E. rewrite inject_Z_plus. change (inject_Z 1) with 1. lra.
Qed.

End RoundFacts.

(** ** The pipeline *)

Section PipelineFacts.

Variable nlp : string -> list string.
Variable rng : Type.
Variable random : rng -> Q * rng.
Variable randbelow : nat -> rng -> nat * rng.

Context {F : Type} `{PyFloat F}.

(** The result of [process] in terms of its humanized text. *)
Lemma process_metrics (text : string) (g : rng) :
  let r := fst (process nlp rng random randbelow text g) in
  let initial := analyze_burstiness nlp text in
  let final := analyze_burstiness nlp (humanized r) in
  metrics r = {| initial_burstiness := fround2 initial;
                 final_burstiness := fround2 final;
                 improvement := fround2 (fsub final initial) |}.
Proof.
  unfold process. simpl.
  destruct (inject_linguistic_noise nlp rng random randbelow text g) as [p1 g1].
  destruct (optimize_rhythm nlp rng random p1 g1) as [p2 g2].
  reflexivity.
Qed.

Lemma analyze_no_sentence (text : string) :
  nlp text = [] -> analyze_burstiness nlp text = float_zero.
Proof. intros Hnlp. unfold analyze_burstiness. now rewrite Hnlp. Qed.

Lemma inject_no_sentence (text : string) (g : rng) :
  nlp text = [] -> inject_linguistic_noise nlp rng random randbelow text g = ("", g).
Proof. intros Hnlp. unfold inject_linguistic_noise. now rewrite Hnlp. Qed.

Lemma optimize_few_sentences (text : string) (g : rng) :
  List.length (nlp text) < 2 -> optimize_rhythm nlp rng random text g = (text, g).
Proof.
  intros Hlen. unfold optimize_rhythm.
  apply Nat.ltb_lt in Hlen. now rewrite Hlen.
Qed.

(** The pipeline on the empty text when the segmenter finds no sentence
    in it. *)
Lemma process_empty (g : rng) :
  nlp "" = [] ->
  process nlp rng random randbelow "" g
  = ({| humanized := "";
        metrics := {| initial_burstiness := fround2 float_zero;
                      final_burstiness := fround2 float_zero;
                      improvement := fround2 (fsub float_zero float_zero) |} |}, g).
Proof.
  intros Hnlp. unfold process. cbn [bind].
  rewrite inject_no_sentence by exact Hnlp.
  rewrite optimize_few_sentences by (rewrite Hnlp; simpl; lia).
  cbn [ret]. now rewrite analyze_no_sentence by exact Hnlp.
Qed.

End PipelineFacts.

(** C6. On the empty input, for which the segmenter gives no sentence,
    [analyze_burstiness] returns 0.0 and [process] returns the empty text
    with the three metrics 0.0; no exception is raised and nothing is drawn
    from the generator. *)
Theorem process_empty_input
    (nlp : string -> list string) (rng : Type) (random : rng -> Q * rng)
    (randbelow : nat -> rng -> nat * rng) (g : rng) :
  nlp "" = [] ->
  analyze_burstiness (F:=B64.b64) nlp "" = S754_zero false
  /\ analyze_burstiness (F:=Q) nlp "" = 0%Q
  /\ process (F:=B64.b64) nlp rng random randbelow "" g
     = ({| humanized := "";
           metrics := {| initial_burstiness := S754_zero false;
                         final_burstiness := S754_zero false;
                         improvement := S754_zero false |} |}, g)
  /\ (let r := fst (process (F:=Q) nlp rng random randbelow "" g) in
      humanized r = ""
      /\ initial_burstiness (metrics r) == 0
      /\ final_burstiness (metrics r) == 0
      /\ improvement (metrics r) == 0)%Q.
Proof.
  intros Hnlp.
  rewrite !process_empty, !analyze_no_sentence by exact Hnlp.
  repeat split.
Qed.

(** C6 with the period segmenter and the scripted generator. *)
Lemma process_empty_input_witness :
  process (F:=B64.b64) PeriodSegmenter.nlp ScriptedRandom.rng
    ScriptedRandom.random ScriptedRandom.randbelow "" [7; 7]
  = ({| humanized := "";
        metrics := {| initial_burstiness := S754_zero false;
                      final_burstiness := S754_zero false;
                      improvement := S754_zero false |} |}, [7; 7]).
Proof.
  apply (process_empty_input PeriodSegmenter.nlp ScriptedRandom.rng
           ScriptedRandom.random ScriptedRandom.randbelow [7; 7]).
  reflexivity.
Defined.

(** ** The noise injector *)

Module InjectorStrings.

Lemma lstrip_no_leading_space (s : string) : no_leading_space (lstrip s).
Proof.
  induction s as [|c s IH]; simpl; [exact I|].
  destruct (is_space c) eqn:Hc; [exact IH | exact Hc].
Qed.

Lemma strip_no_leading_space (s : string) : no_leading_space (strip s).
Proof. apply lstrip_no_leading_space. Qed.

(** The first word of a text that does not start with whitespace is a
    prefix of the text. *)
Lemma split_go_first (s cur w : string) (ws : list string) :
  split_go cur s = w :: ws ->
  cur <> "" \/ no_leading_space s ->
  exists rest, (cur ++ s = w ++ rest)%string.
Proof.
  revert cur. induction s as [|c s IH]; intros cur Hsplit Hstart; simpl in Hsplit.
  - unfold flush in Hsplit. destruct (is_empty cur); [discriminate|].
    injection Hsplit as <- _. now exists "".
  - destruct (is_space c) eqn:Hc.
    + destruct Hstart as [Hcur|Hs]; [|simpl in Hs; congruence].
      unfold flush in Hsplit. destruct cur as [|a cur]; [contradiction|].
      injection Hsplit as <- _. now exists (String c s).
    + destruct (IH (cur ++ String c "")%string Hsplit) as [rest Hrest].
      * left. destruct cur; discriminate.
      * exists rest. now rewrite <- Hrest, append_snoc.
Qed.

Lemma leading_token_prefix (s tok : string) :
  no_leading_space s -> leading_token s = Some tok ->
  exists rest, s = (tok ++ rest)%string.
Proof.
  unfold leading_token, split. intros Hs Htok.
  destruct (split_go "" s) as [|w ws] eqn:E; [discriminate|].
  injection Htok as ->.
  destruct (split_go_first s "" tok ws E (or_intror Hs)) as [rest Hrest].
  now exists rest.
Qed.

(** Stripping a text does not change its words. *)
Lemma split_go_lstrip (s : string) : split_go "" (lstrip s) = split_go "" s.
Proof.
  induction s as [|c s IH]; simpl; [reflexivity|].
  destruct (is_space c) eqn:Hc; [exact IH|].
  simpl. now rewrite Hc.
Qed.

Lemma split_go_rstrip (s cur : string) : split_go cur (rstrip s) = split_go cur s.
Proof.
  revert cur. induction s as [|c s IH]; intros cur; [reflexivity|].
  unfold rstrip in *. simpl.
  destruct (is_empty (rstrip_where is_space s)) eqn:He; simpl.
  - destruct (is_space c) eqn:Hc; simpl.
    + rewrite <- IH. apply is_empty_true in He. rewrite He. simpl.
      now rewrite app_nil_r.
    + rewrite Hc. apply IH.
  - destruct (is_space c) eqn:Hc; [now rewrite IH | apply IH].
Qed.

Lemma split_strip (s : string) : split (strip s) = split s.
Proof.
  unfold split, strip. now rewrite split_go_lstrip, split_go_rstrip.
Qed.

End InjectorStrings.

Section InjectorFacts.

Variable rng : Type.
Variable random : rng -> Q * rng.
Variable randbelow : nat -> rng -> nat * rng.

(** [_randbelow(n)] is below [n]. *)
Hypothesis randbelow_lt : forall n g, 0 < n -> fst (randbelow n g) < n.

Lemma choice_In (seq : list string) (g : rng) :
  seq <> [] -> In (fst (choice rng randbelow seq g)) seq.
Proof.
  intros Hne. unfold choice. cbn [bind ret].
  pose proof (randbelow_lt (List.length seq) g) as Hlt.
  destruct (randbelow (List.length seq) g) as [i g']. cbn [fst] in *.
  apply nth_In, Hlt. destruct seq; [contradiction | simpl; lia].
Qed.

Lemma randint_range (a b : nat) (g : rng) :
  a <= b -> a <= fst (randint rng randbelow a b g) <= b.
Proof.
  intros Hab. unfold randint. cbn [bind ret].
  pose proof (randbelow_lt (b + 1 - a) g) as Hlt.
  destruct (randbelow (b + 1 - a) g) as [i g']. cbn [fst] in *. lia.
Qed.

(** The result of the substitution, for a sentence that starts with one of
    [alts]: the variant at the index that [_randbelow(len(variants))]
    draws, one space, and what is left of the sentence after the opener, an
    optional comma and the whitespace that follows. *)
Lemma substitute_at_draw (alts variants : list string) (o rest : string) (g : rng) :
  match_alternatives alts (o ++ rest) = Some rest ->
  bind (choice rng randbelow variants)
       (fun v => ret (re_sub_opener alts (v ++ " ") (o ++ rest))) g
  = ((nth (fst (randbelow (List.length variants) g)) variants "" ++ " "
      ++ lstrip (skip_comma rest))%string,
     snd (randbelow (List.length variants) g)).
Proof.
  intros Hm. unfold choice, re_sub_opener. cbn [bind ret].
  destruct (randbelow (List.length variants) g) as [i g']. cbn [fst snd].
  now rewrite Hm, append_assoc.
Qed.

Lemma insert_filler_fires (s_text : string) (g : rng) :
  Qltb (fst (random g)) (1 # 10) = true ->
  5 < List.length (split s_text) ->
  exists idx filler,
    1 <= idx <= List.length (split s_text) - 1
    /\ In filler filler_words
    /\ fst (insert_filler rng random randbelow s_text g)
       = join " " (list_insert idx filler (split s_text)).
Proof.
  intros Hcoin Hlen. unfold insert_filler, random_below. cbn [bind ret].
  destruct (random g) as [u g1]. cbn [fst] in Hcoin. rewrite Hcoin.
  apply Nat.ltb_lt in Hlen as Hlenb. rewrite Hlenb. cbn [bind ret].
  pose proof (randint_range 1 (List.length (split s_text) - 1) g1 ltac:(lia)) as Hidx.
  destruct (randint rng randbelow 1 (List.length (split s_text) - 1) g1) as [idx g2].
  assert (Hf : In (fst (choice rng randbelow filler_words g2)) filler_words)
    by (apply choice_In; discriminate).
  destruct (choice rng randbelow filler_words g2) as [filler g3].
  cbn [fst] in *. exists idx, filler. repeat split; try assumption; lia.
Qed.

Lemma insert_filler_idle (s_text : string) (g : rng) :
  Qltb (fst (random g)) (1 # 10) = false \/ List.length (split s_text) <= 5 ->
  fst (insert_filler rng random randbelow s_text g) = s_text.
Proof.
  intros Hidle. unfold insert_filler, random_below. cbn [bind ret].
  destruct (random g) as [u g1]. cbn [fst] in Hidle.
  destruct (Qltb u (1 # 10)); [|reflexivity].
  destruct Hidle as [Hc|Hlen]; [discriminate|].
  apply Nat.ltb_ge in Hlen. now rewrite Hlen.
Qed.

Lemma substitute_transition_idle (s_text : string) (g : rng) :
  startswith_any s_text (addition_openers ++ contrast_openers) = false ->
  substitute_transition rng randbelow s_text g = (s_text, g).
Proof.
  intros Hno. unfold startswith_any in Hno. rewrite existsb_app in Hno.
  apply orb_false_elim in Hno as [Ha Hc].
  unfold contrast_openers in Hc. cbn [existsb] in Hc. rewrite orb_false_r in Hc.
  unfold substitute_transition, startswith_any.
  now rewrite Ha, Hc.
Qed.

(** The words of a sentence after an insertion at an index that is not 0. *)
Lemma insert_keeps_first_word (s x : string) (idx : nat) :
  1 <= idx -> split s <> [] ->
  hd_error (split (join " " (list_insert idx x (split s)))) = hd_error (split s).
Proof.
  intros Hidx Hne. rewrite split_join_insert.
  destruct (split s) as [|w ws]; [contradiction|].
  destruct idx as [|idx]; [lia | reflexivity].
Qed.

Lemma insert_word_count (s x : string) (idx : nat) :
  word_count (join " " (list_insert idx x (split s))) = word_count s + word_count x.
Proof.
  unfold word_count. rewrite split_join_insert, !length_app.
  pose proof (f_equal (@List.length string) (firstn_skipn idx (split s))) as E.
  rewrite length_app in E. lia.
Qed.

(** Filler insertion never changes the first word. *)
Lemma insert_filler_first_word (s_text : string) (g : rng) :
  hd_error (split (fst (insert_filler rng random randbelow s_text g)))
  = hd_error (split s_text).
Proof.
  destruct (Qltb (fst (random g)) (1 # 10)) eqn:Hcoin.
  - destruct (Nat.lt_ge_cases 5 (List.length (split s_text))) as [Hlen|Hlen].
    + destruct (insert_filler_fires s_text g Hcoin Hlen) as (idx & filler & Hidx & _ & ->).
      apply insert_keeps_first_word; [lia|].
      intros E. rewrite E in Hlen. simpl in Hlen. lia.
    + now rewrite insert_filler_idle by now right.
  - now rewrite insert_filler_idle by now left.
Qed.

End InjectorFacts.

(** The scripted generator draws below the bound. *)
Lemma scripted_randbelow_lt (n : nat) (g : ScriptedRandom.rng) :
  0 < n -> fst (ScriptedRandom.randbelow n g) < n.
Proof.
  intros Hn. destruct g as [|x g]; simpl; [exact Hn|].
  apply Nat.mod_upper_bound. lia.
Qed.

(** C2, as stated, fails: a sentence whose leading token is not an opener
    is rewritten when the token merely starts with one. *)
Lemma transition_leading_token_counterexample :
  leading_token_is_opener (addition_openers ++ contrast_openers) "However; it rained." = false
  /\ fst (substitute_transition ScriptedRandom.rng ScriptedRandom.randbelow
            "However; it rained." [0])
     = "But honestly, ; it rained.".
Proof. split; reflexivity. Qed.

(** C2, amended. A sentence undergoes transition substitution exactly when
    its stripped text starts with one of the openers, as a prefix; this
    covers every sentence whose leading token is an opener, optionally
    followed by a comma. The opener, a comma after it and the whitespace
    that follows are replaced by a uniformly random pick in the variant list
    of the opener's kind, and one space: the pick is the entry at the index
    that [_randbelow(4)] draws, the four entries of each list are distinct,
    and the generator is left in the state after that one draw. The match is
    at the start of the sentence only, and a sentence that does not start
    with an opener is left as it is, without a draw. *)
Theorem substitute_transition_prefix
    (rng : Type) (randbelow : nat -> rng -> nat * rng) (s_text : string) (g : rng) :
  (forall n g, 0 < n -> fst (randbelow n g) < n) ->
  let addition := ["Plus,"; "And also,"; "On top of that,"; "Not to mention,"] in
  let contrast := ["But honestly,"; "Though,"; "Still,"; "On the flip side,"] in
  let draw := fst (randbelow 4 g) in
  (forall o rest, In o addition_openers -> s_text = (o ++ rest)%string ->
     substitute_transition rng randbelow s_text g
     = ((nth draw addition "" ++ " " ++ lstrip (skip_comma rest))%string,
        snd (randbelow 4 g))
     /\ draw < 4 /\ In (nth draw addition "") addition)
  /\ (forall o rest, In o contrast_openers -> s_text = (o ++ rest)%string ->
     substitute_transition rng randbelow s_text g
     = ((nth draw contrast "" ++ " " ++ lstrip (skip_comma rest))%string,
        snd (randbelow 4 g))
     /\ draw < 4 /\ In (nth draw contrast "") contrast)
  /\ (NoDup addition /\ NoDup contrast)
  /\ (startswith_any s_text (addition_openers ++ contrast_openers) = false ->
      substitute_transition rng randbelow s_text g = (s_text, g))
  /\ (forall sent, s_text = strip sent ->
      leading_token_is_opener (addition_openers ++ contrast_openers) s_text = true ->
      startswith_any s_text (addition_openers ++ contrast_openers) = true).
Proof.
  intros Hlt addition contrast draw.
  assert (Hdraw : draw < 4) by (apply Hlt; lia).
  split; [|split; [|split; [|split]]].
  - intros o rest Ho ->.
    assert (Hm : match_alternatives addition_openers (o ++ rest) = Some rest
                 /\ startswith_any (o ++ rest) addition_openers = true).
    { split.
      - simpl in Ho. destruct Ho as [<-|[<-|[<-|[]]]]; cbn;
          rewrite ?Ascii.eqb_refl; reflexivity.
      - apply existsb_exists. exists o. split; [exact Ho|].
        apply startswith_append. now exists rest. }
    destruct Hm as [Hm Hs]. unfold substitute_transition. rewrite Hs.
    rewrite (substitute_at_draw rng randbelow addition_openers
               (dict_get transition_variations "addition") o rest g Hm).
    split; [reflexivity|]. split; [exact Hdraw|]. now apply nth_In.
  - intros o rest Ho ->. simpl in Ho. destruct Ho as [<-|[]].
    unfold substitute_transition.
    change (startswith_any ("However" ++ rest) addition_openers) with false.
    rewrite (proj2 (startswith_append ("However" ++ rest) "However"))
      by now exists rest.
    rewrite (substitute_at_draw rng randbelow contrast_openers
               (dict_get transition_variations "contrast") "However" rest g eq_refl).
    split; [reflexivity|]. split; [exact Hdraw|]. now apply nth_In.
  - split; repeat constructor; simpl; intuition discriminate.
  - apply substitute_transition_idle.
  - intros sent -> Htok. unfold leading_token_is_opener in Htok.
    destruct (leading_token (strip sent)) as [tok|] eqn:E; [|discriminate].
    destruct (InjectorStrings.leading_token_prefix _ tok
                (InjectorStrings.strip_no_leading_space sent) E) as [rest Hrest].
    apply existsb_exists in Htok as (o & Ho & Heq).
    apply existsb_exists. exists o. split; [exact Ho|].
    apply startswith_append. rewrite Hrest.
    apply orb_true_iff in Heq as [Heq|Heq]; apply String.eqb_eq in Heq; subst tok.
    + now exists rest.
    + exists ("," ++ rest)%string. now rewrite append_assoc.
Qed.

(** The spec's example of anchoring, with the draws 0 for the variant and
    0.5 twice for the fillers: the first sentence gets a variant, the second
    is untouched. *)
Example inject_anchoring_example :
  inject_linguistic_noise PeriodSegmenter.nlp ScriptedRandom.rng
    ScriptedRandom.random ScriptedRandom.randbelow
    "Furthermore, this matters. The cat sat." [0; 500; 500]
  = ("Plus, this matters. The cat sat.", []).
Proof. reflexivity. Qed.

(** An opener inside a sentence is not a match. *)
Example inject_mid_sentence_example :
  inject_linguistic_noise PeriodSegmenter.nlp ScriptedRandom.rng
    ScriptedRandom.random ScriptedRandom.randbelow
    "We went out, However tired we were." [500]
  = ("We went out, However tired we were.", []).
Proof. reflexivity. Qed.

(** C2 (amended) on the first sentence of the spec's example, with the
    draw 2. *)
Lemma substitute_transition_prefix_witness :
  substitute_transition ScriptedRandom.rng ScriptedRandom.randbelow
    "Furthermore, this matters." [2; 9]
  = ("On top of that, this matters.", [9]).
Proof.
  destruct (substitute_transition_prefix ScriptedRandom.rng ScriptedRandom.randbelow
              "Furthermore, this matters." [2; 9] scripted_randbelow_lt) as (Hadd & _).
  destruct (Hadd "Furthermore" ", this matters.") as (Heq & _).
  - simpl. auto.
  - reflexivity.
  - exact Heq.
Defined.

(** What filler insertion returns, in terms of the three draws it can
    make: [random.random()], then [_randbelow(len(words) - 1)] for the
    index, then [_randbelow(7)] for the filler. *)
Lemma insert_filler_at_draws
    (rng : Type) (random : rng -> Q * rng) (randbelow : nat -> rng -> nat * rng)
    (s_text : string) (g : rng) :
  let words := split s_text in
  let g1 := snd (random g) in
  let j := fst (randbelow (List.length words - 1) g1) in
  let g2 := snd (randbelow (List.length words - 1) g1) in
  let k := fst (randbelow 7 g2) in
  insert_filler rng random randbelow s_text g
  = if Qltb (fst (random g)) (1 # 10) && (5 <? List.length words)
    then (join " " (list_insert (1 + j) (nth k filler_words "") words),
          snd (randbelow 7 g2))
    else (s_text, g1).
Proof.
  intros words g1 j g2 k. subst words g1 j g2 k.
  unfold insert_filler, random_below, randint, choice. cbn [bind ret].
  destruct (random g) as [u g1]. cbn [fst snd].
  destruct (Qltb u (1 # 10)); [|reflexivity].
  destruct (5 <? List.length (split s_text)) eqn:E; [|reflexivity].
  cbn [andb bind ret].
  replace (List.length (split s_text) - 1 + 1 - 1) with (List.length (split s_text) - 1)
    by lia.
  destruct (randbelow (List.length (split s_text) - 1) g1) as [j g2]. cbn [fst snd].
  change (List.length filler_words) with 7.
  destruct (randbelow 7 g2) as [k g3]. reflexivity.
Qed.

(** C3, as stated, fails for the sentences that the injector receives: the
    sentence "However, it rained." has 3 words, yet after the transition
    substitution it has 6, a filler is inserted, and the output starts with
    "On" and not with "However,". *)
Lemma filler_short_sentence_counterexample :
  word_count "However, it rained." = 3
  /\ inject_linguistic_noise PeriodSegmenter.nlp ScriptedRandom.rng
       ScriptedRandom.random ScriptedRandom.randbelow
       "However, it rained." [3; 50; 0; 6]
     = ("On just the flip side, it rained.", [])
  /\ hd_error (split "On just the flip side, it rained.") = Some "On"
  /\ hd_error (split "However, it rained.") = Some "However,".
Proof. repeat split. Qed.

(** C3, amended. For each sentence the injector first strips it and applies
    the transition substitution; filler insertion is decided on the
    sentence as it then stands. It happens only when the draw of
    [random.random()] is below 0.1 (probability 0.1) and that sentence has
    more than 5 words. The index is a uniformly random pick between 1 and
    the number of words minus 1, namely 1 plus the draw of
    [_randbelow(len(words) - 1)], so never 0; the filler is a uniformly
    random pick in the vocabulary, namely the entry at the draw of
    [_randbelow(7)], and the seven entries are distinct. Whenever the
    insertion fires, the first word of the output sentence is the first
    word of the sentence after transition substitution, which is the first
    word of the input sentence when the sentence starts with no opener.
    Otherwise the sentence after transition substitution is the output. *)
Theorem filler_after_substitution
    (rng : Type) (random : rng -> Q * rng) (randbelow : nat -> rng -> nat * rng)
    (sent : string) (g : rng) :
  (forall n g, 0 < n -> fst (randbelow n g) < n) ->
  let s1 := fst (substitute_transition rng randbelow (strip sent) g) in
  let g1 := snd (substitute_transition rng randbelow (strip sent) g) in
  let words := split s1 in
  let fire := Qltb (fst (random g1)) (1 # 10) in
  let g2 := snd (random g1) in
  let j := fst (randbelow (List.length words - 1) g2) in
  let g3 := snd (randbelow (List.length words - 1) g2) in
  let k := fst (randbelow 7 g3) in
  let out := fst (noise_sentence rng random randbelow sent g) in
  (fire = true -> 5 < List.length words ->
     noise_sentence rng random randbelow sent g
     = (join " " (list_insert (1 + j) (nth k filler_words "") words),
        snd (randbelow 7 g3))
     /\ 1 <= 1 + j <= List.length words - 1
     /\ k < 7 /\ In (nth k filler_words "") filler_words
     /\ hd_error (split out) = hd_error words)
  /\ (fire = false \/ List.length words <= 5 ->
      noise_sentence rng random randbelow sent g = (s1, g2))
  /\ (startswith_any (strip sent) (addition_openers ++ contrast_openers) = false ->
      s1 = strip sent /\ hd_error words = hd_error (split sent))
  /\ (NoDup filler_words /\ List.length filler_words = 7).
Proof.
  intros Hlt s1 g1 words fire g2 j g3 k out.
  assert (Hns : noise_sentence rng random randbelow sent g
                = insert_filler rng random randbelow s1 g1).
  { unfold noise_sentence. cbn [bind]. subst s1 g1.
    now destruct (substitute_transition rng randbelow (strip sent) g). }
  pose proof (insert_filler_at_draws rng random randbelow s1 g1) as Hdraws.
  cbv zeta in Hdraws. fold words g2 j g3 k fire in Hdraws.
  split; [|split; [|split]].
  - intros Hfire Hlen. rewrite Hns, Hdraws, Hfire.
    apply Nat.ltb_lt in Hlen as Hb. rewrite Hb. cbn [andb].
    split; [reflexivity|].
    assert (Hj : j < List.length words - 1) by (apply Hlt; lia).
    assert (Hk : k < 7) by (apply Hlt; lia).
    split; [lia|]. split; [exact Hk|]. split; [now apply nth_In|].
    subst out. rewrite Hns. apply (insert_filler_first_word rng random randbelow Hlt).
  - intros Hidle. rewrite Hns, Hdraws.
    destruct Hidle as [Hf|Hlen].
    + now rewrite Hf.
    + apply Nat.ltb_ge in Hlen. rewrite Hlen. now rewrite andb_false_r.
  - intros Hno. subst words s1.
    rewrite substitute_transition_idle by exact Hno. cbn [fst].
    split; [reflexivity|]. now rewrite InjectorStrings.split_strip.
  - split; [|reflexivity]. repeat constructor; simpl; intuition discriminate.
Qed.

(** C3 (amended) on the sentence of the counterexample: the draws are 3 for
    the variant, 0.05, 0 for the index and 6 for the filler. *)
Lemma filler_after_substitution_witness :
  noise_sentence ScriptedRandom.rng ScriptedRandom.random ScriptedRandom.randbelow
    "However, it rained." [3; 50; 0; 6]
  = ("On just the flip side, it rained.", []).
Proof.
  destruct (filler_after_substitution ScriptedRandom.rng ScriptedRandom.random
              ScriptedRandom.randbelow "However, it rained." [3; 50; 0; 6]
              scripted_randbelow_lt) as (Hfire & _).
  destruct Hfire as (Heq & _).
  - reflexivity.
  - simpl. lia.
  - exact Heq.
Defined.

(** C10. The vocabulary has the two-word fillers "kind of" and "sort of".
    When filler insertion fires, the word count of the output is the word
    count of the input plus the word count of the filler: plus 2 for these
    two fillers, plus 1 for the others. *)
Theorem insert_filler_word_count
    (rng : Type) (random : rng -> Q * rng) (randbelow : nat -> rng -> nat * rng)
    (s_text : string) (g : rng) :
  (forall n g, 0 < n -> fst (randbelow n g) < n) ->
  let out := fst (insert_filler rng random randbelow s_text g) in
  (In "kind of" filler_words /\ In "sort of" filler_words
   /\ word_count "kind of" = 2 /\ word_count "sort of" = 2)
  /\ (Qltb (fst (random g)) (1 # 10) = true -> 5 < word_count s_text ->
      exists idx filler,
        In filler filler_words
        /\ out = join " " (list_insert idx filler (split s_text))
        /\ word_count out = word_count s_text + word_count filler
        /\ (filler = "kind of" \/ filler = "sort of" ->
            word_count out = word_count s_text + 2)
        /\ (filler <> "kind of" -> filler <> "sort of" ->
            word_count out = word_count s_text + 1)).
Proof.
  intros Hlt out. subst out. split.
  - repeat split; simpl; auto 10.
  - intros Hcoin Hlen.
    destruct (insert_filler_fires rng random randbelow Hlt s_text g Hcoin Hlen)
      as (idx & filler & _ & Hin & Hout).
    exists idx, filler. rewrite Hout, insert_word_count.
    repeat split; try assumption.
    + intros [->| ->]; reflexivity.
    + intros Hk Hs. simpl in Hin.
      destruct Hin as [<-|[<-|[<-|[<-|[<-|[<-|[<-|[]]]]]]]];
        try reflexivity; contradiction.
Qed.

(** C10 on a sentence of six words that receives "kind of". *)
Lemma insert_filler_word_count_witness :
  word_count "this matters a lot to me." = 6
  /\ word_count (fst (insert_filler ScriptedRandom.rng ScriptedRandom.random
                        ScriptedRandom.randbelow "this matters a lot to me." [50; 2; 4])) = 8
  /\ exists idx filler,
       In filler filler_words
       /\ fst (insert_filler ScriptedRandom.rng ScriptedRandom.random
                 ScriptedRandom.randbelow "this matters a lot to me." [50; 2; 4])
          = join " " (list_insert idx filler (split "this matters a lot to me."))
       /\ word_count (fst (insert_filler ScriptedRandom.rng ScriptedRandom.random
                 ScriptedRandom.randbelow "this matters a lot to me." [50; 2; 4]))
          = 6 + word_count filler.
Proof.
  split; [reflexivity|]. split; [reflexivity|].
  destruct (insert_filler_word_count ScriptedRandom.rng ScriptedRandom.random
              ScriptedRandom.randbelow "this matters a lot to me." [50; 2; 4]
              scripted_randbelow_lt) as (_ & Hfire).
  destruct Hfire as (idx & filler & Hin & Hout & Hcount & _).
  - reflexivity.
  - unfold word_count. simpl. lia.
  - exists idx, filler. repeat split; assumption.
Defined.

(** ** The rhythm optimizer *)

Section OptimizerFacts.

Variable rng : Type.
Variable random : rng -> Q * rng.

Lemma skipn_cons_nth (l : list string) (i : nat) :
  i < List.length l -> skipn i l = nth i l "" :: skipn (S i) l.
Proof.
  revert i. induction l as [|x l IH]; intros i Hi; simpl in Hi; [lia|].
  destruct i as [|i]; [reflexivity|]. simpl. apply IH. lia.
Qed.

Lemma units_of_length (sents us : list string) :
  units_of sents us -> List.length us <= List.length sents <= 2 * List.length us.
Proof. induction 1; simpl; lia. Qed.

(** The test of the loop, as a proposition. *)
Lemma merge_condition_true (sents : list string) (i : nat) (curr : string) (g : rng) :
  fst (merge_condition rng random sents i curr g) = true
  <-> i + 1 < List.length sents
      /\ word_count curr < 10
      /\ word_count (nth (i + 1) sents "") < 10
      /\ Qltb (fst (random g)) (3 # 10) = true.
Proof.
  unfold merge_condition, random_below. cbn [bind ret].
  destruct (i + 1 <? List.length sents) eqn:E1;
    destruct (word_count curr <? 10) eqn:E2;
    destruct (word_count (nth (i + 1) sents "") <? 10) eqn:E3;
    cbn [andb];
    rewrite ?Nat.ltb_lt, ?Nat.ltb_ge in *;
    try (split; [discriminate | intros (? & ? & ? & ?); lia]).
  cbn [bind ret]. destruct (random g) as [u g']. cbn [fst]. tauto.
Qed.

(** The generator is consulted only for a pair of short sentences. *)
Lemma merge_condition_long (sents : list string) (i : nat) (curr : string) (g : rng) :
  10 <= word_count curr \/ 10 <= word_count (nth (i + 1) sents "") ->
  merge_condition rng random sents i curr g = (false, g).
Proof.
  intros Hlong. unfold merge_condition.
  destruct (i + 1 <? List.length sents); [|reflexivity].
  destruct (word_count curr <? 10) eqn:E2; [|reflexivity].
  destruct (word_count (nth (i + 1) sents "") <? 10) eqn:E3; [|reflexivity].
  rewrite Nat.ltb_lt in *. lia.
Qed.

(** With enough iterations the loop appends to [new_text] units for the
    sentences from the cursor on. *)
Lemma rhythm_loop_units (fuel : nat) (sents : list string) :
  forall (i : nat) (new_text : list string) (g : rng),
  List.length sents - i <= fuel ->
  exists us,
    fst (rhythm_loop rng random fuel sents i new_text g) = new_text ++ us
    /\ units_of (skipn i sents) us.
Proof.
  induction fuel as [|fuel IH]; intros i new_text g Hfuel.
  - exists []. split; [simpl; now rewrite app_nil_r|].
    rewrite skipn_all2 by lia. constructor.
  - cbn [rhythm_loop].
    destruct (i <? List.length sents) eqn:Ei.
    + apply Nat.ltb_lt in Ei. cbn [bind].
      pose proof (merge_condition_true sents i (strip (nth i sents "")) g) as Hc.
      destruct (merge_condition rng random sents i (strip (nth i sents "")) g)
        as [merge g1]. cbn [fst] in Hc.
      destruct merge.
      * destruct Hc as [Hc _]. destruct (Hc eq_refl) as (Hi & Hw1 & Hw2 & _).
        destruct (IH (i + 2) (new_text ++ [combine (strip (nth i sents ""))
                                             (nth (i + 1) sents "")]) g1)
          as (us & Hus & Hunits); [lia|].
        exists (combine (strip (nth i sents "")) (nth (i + 1) sents "") :: us).
        split; [now rewrite Hus, <- app_assoc|].
        rewrite (skipn_cons_nth sents i) by lia.
        rewrite (skipn_cons_nth sents (S i)) by lia.
        replace (i + 1) with (S i) in * by lia.
        replace (i + 2) with (S (S i)) in * by lia.
        now constructor.
      * destruct (IH (i + 1) (new_text ++ [strip (nth i sents "")]) g1)
          as (us & Hus & Hunits); [lia|].
        exists (strip (nth i sents "") :: us).
        split; [now rewrite Hus, <- app_assoc|].
        rewrite (skipn_cons_nth sents i) by lia.
        replace (i + 1) with (S i) in * by lia.
        now constructor.
    + apply Nat.ltb_ge in Ei. exists [].
      split; [simpl; now rewrite app_nil_r|].
      rewrite skipn_all2 by lia. constructor.
Qed.

(** Beyond [len(sents) - i] iterations, the number of iterations allowed
    does not change the result: the loop has ended. *)
Lemma rhythm_loop_enough_fuel (fuel : nat) (sents : list string) :
  forall (fuel' i : nat) (new_text : list string) (g : rng),
  List.length sents - i <= fuel -> List.length sents - i <= fuel' ->
  rhythm_loop rng random fuel sents i new_text g
  = rhythm_loop rng random fuel' sents i new_text g.
Proof.
  induction fuel as [|fuel IH]; intros fuel' i new_text g Hfuel Hfuel'.
  - destruct fuel' as [|fuel']; [reflexivity|]. cbn [rhythm_loop].
    assert (Hi : (i <? List.length sents) = false) by (apply Nat.ltb_ge; lia).
    now rewrite Hi.
  - cbn [rhythm_loop].
    destruct (i <? List.length sents) eqn:Ei.
    + apply Nat.ltb_lt in Ei.
      destruct fuel' as [|fuel']; [lia|]. cbn [rhythm_loop].
      apply Nat.ltb_lt in Ei as Eb. rewrite Eb. cbn [bind].
      destruct (merge_condition rng random sents i (strip (nth i sents "")) g)
        as [merge g1].
      destruct merge; apply IH; lia.
    + destruct fuel' as [|fuel']; [reflexivity|]. cbn [rhythm_loop]. now rewrite Ei.
Qed.

Variable nlp : string -> list string.

(** The output of the optimizer for two sentences or more. *)
Lemma optimize_units (text : string) (g : rng) :
  2 <= List.length (nlp text) ->
  exists us,
    fst (optimize_rhythm nlp rng random text g) = join " " us
    /\ units_of (nlp text) us.
Proof.
  intros Hlen. unfold optimize_rhythm.
  apply Nat.ltb_ge in Hlen as Hb. rewrite Hb. cbn [bind].
  destruct (rhythm_loop_units (List.length (nlp text)) (nlp text) 0 [] g) as (us & Hus & Hunits);
    [lia|].
  destruct (rhythm_loop rng random (List.length (nlp text)) (nlp text) 0 [] g) as [new_text g'].
  cbn [fst ret] in *. subst new_text. exists us. now split.
Qed.


(** Three sentences of which the first two are merged: the third is
    emitted on its own, with no further draw. *)
Lemma optimize_three_merged (text a b c : string) (g : rng) :
  nlp text = [a; b; c] ->
  word_count (strip a) < 10 -> word_count b < 10 ->
  Qltb (fst (random g)) (3 # 10) = true ->
  optimize_rhythm nlp rng random text g
  = ((combine (strip a) b ++ " " ++ strip c)%string, snd (random g)).
Proof.
  intros Hnlp Ha Hb Hcoin. unfold optimize_rhythm. rewrite Hnlp.
  change (List.length [a; b; c] <? 2) with false.
  cbn [List.length rhythm_loop bind nth]. unfold merge_condition.
  cbn [List.length nth].
  change (0 <? 3) with true. change (0 + 1 <? 3) with true.
  change (0 + 1) with 1. change (0 + 2) with 2.
  change (2 <? 3) with true. change (2 + 1 <? 3) with false.
  change (2 + 1) with 3. change (3 <? 3) with false.
  apply Nat.ltb_lt in Ha, Hb. rewrite Ha, Hb.
  cbn [andb app]. unfold random_below. cbn [bind ret].
  destruct (random g) as [u g']. cbn [fst snd] in *. now rewrite Hcoin.
Qed.

End OptimizerFacts.



(** C7. With fewer than 2 sentences the optimizer returns its input as it
    is, without a draw. With 2 sentences or more, every emitted unit is one
    stripped sentence or the combination of exactly two adjacent sentences:
    the cursor moves past both sentences of a merge, so a merged pair is not
    merged again, and a third short sentence after a merge is emitted on its
    own even if a draw would succeed. *)
Theorem optimize_rhythm_single_pass
    (nlp : string -> list string) (rng : Type) (random : rng -> Q * rng)
    (text : string) (g : rng) :
  (List.length (nlp text) < 2 -> optimize_rhythm nlp rng random text g = (text, g))
  /\ (2 <= List.length (nlp text) ->
      exists us, fst (optimize_rhythm nlp rng random text g) = join " " us
                 /\ units_of (nlp text) us
                 /\ List.length (nlp text) <= 2 * List.length us)
  /\ (forall a b c, nlp text = [a; b; c] ->
      word_count (strip a) < 10 -> word_count b < 10 ->
      Qltb (fst (random g)) (3 # 10) = true ->
      optimize_rhythm nlp rng random text g
      = ((combine (strip a) b ++ " " ++ strip c)%string, snd (random g))).
Proof.
  split; [|split].
  - apply optimize_few_sentences.
  - intros Hlen. destruct (optimize_units rng random nlp text g Hlen) as (us & Hout & Hunits).
    exists us. repeat split; try assumption.
    apply (units_of_length _ _ Hunits).
  - intros a b c. apply optimize_three_merged.
Qed.

(** C7 on a text of one sentence, and on three short sentences with draws
    that would all succeed. *)
Lemma optimize_rhythm_single_pass_witness :
  optimize_rhythm PeriodSegmenter.nlp ScriptedRandom.rng ScriptedRandom.random
    "  The cat sat.  " [100]
  = ("  The cat sat.  ", [100])
  /\ optimize_rhythm PeriodSegmenter.nlp ScriptedRandom.rng ScriptedRandom.random
       "The cat sat. A dog ran. It rained." [100; 100; 100]
     = ("The cat sat, and A dog ran. It rained.", [100; 100]).
Proof.
  split.
  - apply (optimize_rhythm_single_pass PeriodSegmenter.nlp ScriptedRandom.rng
             ScriptedRandom.random "  The cat sat.  " [100]).
    simpl. lia.
  - destruct (optimize_rhythm_single_pass PeriodSegmenter.nlp ScriptedRandom.rng
                ScriptedRandom.random "The cat sat. A dog ran. It rained." [100; 100; 100])
      as (_ & _ & H3).
    apply (H3 "The cat sat." "A dog ran." "It rained."); try reflexivity.
    + unfold word_count. simpl. lia.
    + unfold word_count. simpl. lia.
Defined.

(** ** Determinism of the pipeline *)

Section Determinism.

Variable nlp1 nlp2 : string -> list string.
Variable rng : Type.
Variable random1 random2 : rng -> Q * rng.
Variable randbelow1 randbelow2 : nat -> rng -> nat * rng.

(** The two runs see the same segmentation and the same draws. *)
Hypothesis same_nlp : forall text, nlp1 text = nlp2 text.
Hypothesis same_random : forall g, random1 g = random2 g.
Hypothesis same_randbelow : forall n g, randbelow1 n g = randbelow2 n g.

Lemma bind_ext {A B : Type} (m1 m2 : M rng A) (k1 k2 : A -> M rng B) (g : rng) :
  (forall g, m1 g = m2 g) -> (forall a g, k1 a g = k2 a g) ->
  bind m1 k1 g = bind m2 k2 g.
Proof.
  intros Hm Hk. cbn [bind]. rewrite Hm. destruct (m2 g) as [a g']. apply Hk.
Qed.

Lemma choice_ext (seq : list string) (g : rng) :
  choice rng randbelow1 seq g = choice rng randbelow2 seq g.
Proof. unfold choice. apply bind_ext; [apply same_randbelow | reflexivity]. Qed.

Lemma randint_ext (a b : nat) (g : rng) :
  randint rng randbelow1 a b g = randint rng randbelow2 a b g.
Proof. unfold randint. apply bind_ext; [apply same_randbelow | reflexivity]. Qed.

Lemma random_below_ext (p : Q) (g : rng) :
  random_below rng random1 p g = random_below rng random2 p g.
Proof. unfold random_below. apply bind_ext; [apply same_random | reflexivity]. Qed.

Lemma substitute_transition_ext (s_text : string) (g : rng) :
  substitute_transition rng randbelow1 s_text g
  = substitute_transition rng randbelow2 s_text g.
Proof.
  unfold substitute_transition.
  destruct (startswith_any s_text addition_openers).
  - apply bind_ext; [intros; apply choice_ext | reflexivity].
  - destruct (startswith s_text "However"); [|reflexivity].
    apply bind_ext; [intros; apply choice_ext | reflexivity].
Qed.

Lemma insert_filler_ext (s_text : string) (g : rng) :
  insert_filler rng random1 randbelow1 s_text g
  = insert_filler rng random2 randbelow2 s_text g.
Proof.
  unfold insert_filler.
  apply bind_ext; [intros; apply random_below_ext|].
  intros fire g1. destruct fire; [|reflexivity].
  destruct (5 <? List.length (split s_text)); [|reflexivity].
  apply bind_ext; [intros; apply randint_ext|].
  intros idx g2. apply bind_ext; [intros; apply choice_ext | reflexivity].
Qed.

Lemma noise_sentence_ext (sent : string) (g : rng) :
  noise_sentence rng random1 randbelow1 sent g
  = noise_sentence rng random2 randbelow2 sent g.
Proof.
  unfold noise_sentence.
  apply bind_ext; [intros; apply substitute_transition_ext|].
  intros; apply insert_filler_ext.
Qed.

Lemma for_each_ext (sentences : list string) (g : rng) :
  for_each rng random1 randbelow1 sentences g
  = for_each rng random2 randbelow2 sentences g.
Proof.
  revert g. induction sentences as [|sent rest IH]; intros g; [reflexivity|].
  cbn [for_each].
  apply bind_ext; [intros; apply noise_sentence_ext|].
  intros s_text g1. apply bind_ext; [exact IH | reflexivity].
Qed.

Lemma inject_ext (text : string) (g : rng) :
  inject_linguistic_noise nlp1 rng random1 randbelow1 text g
  = inject_linguistic_noise nlp2 rng random2 randbelow2 text g.
Proof.
  unfold inject_linguistic_noise. rewrite same_nlp.
  apply bind_ext; [intros; apply for_each_ext | reflexivity].
Qed.

Lemma merge_condition_ext (sents : list string) (i : nat) (curr : string) (g : rng) :
  merge_condition rng random1 sents i curr g = merge_condition rng random2 sents i curr g.
Proof.
  unfold merge_condition.
  destruct (_ && _); [apply random_below_ext | reflexivity].
Qed.

Lemma rhythm_loop_ext (fuel : nat) (sents : list string) :
  forall (i : nat) (new_text : list string) (g : rng),
  rhythm_loop rng random1 fuel sents i new_text g
  = rhythm_loop rng random2 fuel sents i new_text g.
Proof.
  induction fuel as [|fuel IH]; intros i new_text g; [reflexivity|].
  cbn [rhythm_loop].
  destruct (i <? List.length sents); [|reflexivity].
  apply bind_ext; [intros; apply merge_condition_ext|].
  intros merge g1. destruct merge; apply IH.
Qed.

Lemma optimize_ext (text : string) (g : rng) :
  optimize_rhythm nlp1 rng random1 text g = optimize_rhythm nlp2 rng random2 text g.
Proof.
  unfold optimize_rhythm. rewrite same_nlp.
  destruct (List.length (nlp2 text) <? 2); [reflexivity|].
  apply bind_ext; [intros; apply rhythm_loop_ext | reflexivity].
Qed.

Context {F : Type} `{PyFloat F}.

Lemma analyze_ext (text : string) :
  analyze_burstiness nlp1 text = analyze_burstiness nlp2 text.
Proof. unfold analyze_burstiness. now rewrite same_nlp. Qed.

Lemma process_ext (text : string) (g : rng) :
  process nlp1 rng random1 randbelow1 text g = process nlp2 rng random2 randbelow2 text g.
Proof.
  unfold process.
  apply bind_ext; [intros; apply inject_ext|].
  intros p1 g1. apply bind_ext; [intros; apply optimize_ext|].
  intros p2 g2. now rewrite !analyze_ext.
Qed.

End Determinism.

(** C8. Two runs of [process] from the same state of the generator, on the
    same text, with the same segmentation and the same draws, give the same
    result, and leave the generator in the same state. *)
Theorem process_deterministic
    (nlp1 nlp2 : string -> list string) (rng : Type)
    (random1 random2 : rng -> Q * rng)
    (randbelow1 randbelow2 : nat -> rng -> nat * rng)
    (F : Type) (HF : PyFloat F) (text1 text2 : string) (seed1 seed2 : rng) :
  (forall text, nlp1 text = nlp2 text) ->
  (forall g, random1 g = random2 g) ->
  (forall n g, randbelow1 n g = randbelow2 n g) ->
  text1 = text2 -> seed1 = seed2 ->
  process nlp1 rng random1 randbelow1 text1 seed1
  = process nlp2 rng random2 randbelow2 text2 seed2.
Proof.
  intros Hnlp Hrandom Hrandbelow -> ->.
  now apply process_ext.
Qed.

(** C8 on the spec's example, with a script of draws as the seed. *)
Lemma process_deterministic_witness :
  process (F:=B64.b64) PeriodSegmenter.nlp ScriptedRandom.rng
    ScriptedRandom.random ScriptedRandom.randbelow
    "Furthermore, this matters. The cat sat." [1; 500; 500; 100]
  = process (F:=B64.b64) (fun text => PeriodSegmenter.nlp text) ScriptedRandom.rng
      (fun g => ScriptedRandom.random g) (fun n g => ScriptedRandom.randbelow n g)
      "Furthermore, this matters. The cat sat." [1; 500; 500; 100].
Proof.
  apply (process_deterministic PeriodSegmenter.nlp (fun text => PeriodSegmenter.nlp text)
           ScriptedRandom.rng
           ScriptedRandom.random (fun g => ScriptedRandom.random g)
           ScriptedRandom.randbelow (fun n g => ScriptedRandom.randbelow n g)
           B64.b64 B64.binary64_float); reflexivity.
Defined.

(** The result does depend on the state of the generator: two seeds give
    two texts for the spec's example, which is why an unseeded run is not
    reproducible. *)
Example process_depends_on_seed :
  humanized (fst (process (F:=B64.b64) PeriodSegmenter.nlp ScriptedRandom.rng
                    ScriptedRandom.random ScriptedRandom.randbelow
                    "Furthermore, this matters. The cat sat." [0; 500; 500; 500]))
  = "Plus, this matters. The cat sat."
  /\ humanized (fst (process (F:=B64.b64) PeriodSegmenter.nlp ScriptedRandom.rng
                       ScriptedRandom.random ScriptedRandom.randbelow
                       "Furthermore, this matters. The cat sat." [3; 500; 500; 100]))
     = "Not to mention, this matters, and The cat sat.".
Proof. split; reflexivity. Qed.

(** * Further properties of the engine *)

(** ** The analyzer in exact arithmetic *)

Module VarianceFacts.

Local Open Scope Q_scope.

(** A sum of non-negative terms is zero only if every term is zero. *)
Lemma Qsum_zero (l : list Q) :
  Forall (fun x => 0 <= x) l -> Qsum l == 0 -> Forall (fun x => x == 0) l.
Proof.
  induction 1 as [|x l Hx Hl IH]; simpl; intros Hs; constructor.
  - pose proof (Qsum_nonneg l Hl). lra.
  - apply IH. pose proof (Qsum_nonneg l Hl). lra.
Qed.

Lemma Qsum_constant (c : Q) (l : list Q) :
  Forall (fun x => x == c) l -> Qsum l == inject_Z (Z.of_nat (List.length l)) * c.
Proof.
  induction 1 as [|x l Hx _ IH]; [simpl; ring|].
  cbn [Qsum fold_right List.length]. fold (Qsum l).
  rewrite Nat2Z.inj_succ, <- Z.add_1_r, inject_Z_plus, IH, Hx. simpl. ring.
Qed.

Lemma Qsqr_zero (x : Q) : x ^ 2 == 0 -> x == 0.
Proof.
  intros H. simpl in H.
  destruct (Qmult_integral x x) as [E|E]; try exact E.
  rewrite <- H. ring.
Qed.

(** The population variance is zero exactly when the counts are equal. *)
Lemma population_variance_zero (counts : list Z) :
  population_variance counts == 0 <-> (forall x y, In x counts -> In y counts -> x = y).
Proof.
  unfold population_variance.
  destruct counts as [|c0 cs] eqn:Ec.
  { split; [intros _ x y [] | reflexivity]. }
  rewrite <- Ec.
  assert (Hin : In c0 counts) by (subst counts; now left).
  assert (Hne : counts <> []) by (subst counts; discriminate).
  clear Ec cs.
  assert (Hn : 0 < inject_Z (Z.of_nat (List.length counts))).
  { change 0 with (inject_Z 0). rewrite <- Zlt_Qlt.
    destruct counts; [contradiction | simpl; lia]. }
  assert (Hlen : List.length (map inject_Z counts) = List.length counts) by apply length_map.
  split.
  - intros Hv. unfold mean at 1 in Hv. rewrite !length_map in Hv.
    assert (Hs : Qsum (map (fun x => (x - mean (map inject_Z counts)) ^ 2)
                           (map inject_Z counts)) == 0).
    { apply (Qmult_inj_r _ _ (/ inject_Z (Z.of_nat (List.length counts)))).
      - intros E. apply Qinv_lt_0_compat in Hn. lra.
      - unfold Qdiv in Hv. rewrite Hv. ring. }
    apply Qsum_zero in Hs.
    + assert (Hall : forall x, In x counts -> inject_Z x == mean (map inject_Z counts)).
      { intros x Hx. rewrite Forall_forall in Hs.
        assert (Hsq : (inject_Z x - mean (map inject_Z counts)) ^ 2 == 0).
        { apply Hs. apply in_map_iff. exists (inject_Z x). split; [reflexivity|].
          now apply in_map. }
        apply Qsqr_zero in Hsq. lra. }
      intros x y Hx Hy. apply inject_Z_injective.
      now rewrite (Hall x Hx), (Hall y Hy).
    + apply Forall_forall. intros y Hy. apply in_map_iff in Hy as [x [<- _]].
      apply Qsqr_nonneg.
  - intros Heq.
    assert (Hc : Forall (fun x => x == inject_Z c0) (map inject_Z counts)).
    { apply Forall_forall. intros y Hy. apply in_map_iff in Hy as [x [<- Hx]].
      now rewrite (Heq x c0 Hx Hin). }
    assert (Hm : mean (map inject_Z counts) == inject_Z c0).
    { unfold mean. rewrite (Qsum_constant _ _ Hc), Hlen. field. lra. }
    unfold mean at 1. rewrite !length_map.
    assert (Hz : Qsum (map (fun x => (x - mean (map inject_Z counts)) ^ 2)
                           (map inject_Z counts)) == 0).
    { rewrite (Qsum_constant 0).
      - ring.
      - apply Forall_forall. intros y Hy. apply in_map_iff in Hy as [x [<- Hx]].
        rewrite Forall_forall in Hc. rewrite (Hc x Hx), Hm. simpl. ring. }
    rewrite Hz. unfold Qdiv. ring.
Qed.

Lemma population_variance_two (a b : Z) :
  population_variance [a; b] == ((inject_Z a - inject_Z b) / 2) ^ 2.
Proof.
  unfold population_variance, mean. simpl. field.
Qed.

End VarianceFacts.

(** ** The analyzer in binary64 on one sentence *)

Module B64Exact.

Import B64 B64Sign B64Facts.

Local Open Scope Z_scope.

Lemma shiftl_pos (p k : positive) : Z.shiftl (Zpos p) (Zpos k) = Zpos (Pos.iter xO p k).
Proof.
  cbn [Z.shiftl]. induction k as [|k IH] using Pos.peano_ind.
  - reflexivity.
  - now rewrite !Pos.iter_succ, IH.
Qed.

Lemma div_eucl_1 (a : Z) : Z.div_eucl a 1 = (a, 0).
Proof.
  pose proof (Z.div_1_r a) as Hq. pose proof (Z.mod_1_r a) as Hr.
  unfold Z.div, Z.modulo in *. destruct (Z.div_eucl a 1) as [q r].
  simpl in *. congruence.
Qed.

(** The float of a positive integer below 2^53, in normal form. *)
Lemma of_int_pos_normal (p : positive) :
  Zpos p < 2 ^ 53 ->
  of_int (Zpos p)
  = match Zpos (digits2_pos p) - 53 with
    | Zneg k => S754_finite false (Pos.iter xO p k) (Zpos (digits2_pos p) - 53)
    | _ => S754_finite false p 0
    end.
Proof.
  intros Hp. apply digits2_pos_bound in Hp.
  unfold of_int. cbn [binary_normalize]. unfold binary_round.
  assert (Hf : fexp prec emax (Zpos (digits2_pos p) + 0) = Zpos (digits2_pos p) - 53).
  { unfold fexp, emin, prec, emax. lia. }
  rewrite Hf. unfold shl_align. rewrite Z.sub_0_r.
  destruct (Zpos (digits2_pos p) - 53) as [|k|k] eqn:Ek; try lia.
  - apply binary_round_aux_canonical.
    + unfold fexp, emin, prec, emax. lia.
    + unfold prec, emax. lia.
  - rewrite <- Ek. apply binary_round_aux_canonical.
    + rewrite digits2_pos_iter_xO. unfold fexp, emin, prec, emax. lia.
    + unfold prec, emax. lia.
Qed.

(** A mantissa of 54 bits that ends with a zero loses that bit exactly. *)
Lemma binary_round_aux_even (s : bool) (q : positive) (e : Z) :
  Zpos (digits2_pos q) = 53 -> -1074 <= e <= 971 ->
  binary_round_aux prec emax s (Zpos q~0) (e - 1) loc_Exact = S754_finite s q e.
Proof.
  intros Hd He. unfold binary_round_aux, shr_fexp.
  cbn [Zdigits2 digits2_pos shr_record_of_loc].
  rewrite Pos2Z.inj_succ, Hd.
  assert (H1 : fexp prec emax (Z.succ 53 + (e - 1)) - (e - 1) = 1).
  { unfold fexp, emin, prec, emax. lia. }
  rewrite H1.
  cbn [shr iter_pos shr_1 orb shr_m loc_of_shr_record round_nearest_even
       Zdigits2 shr_record_of_loc].
  rewrite Hd.
  assert (H0 : fexp prec emax (53 + (e - 1 + 1)) - (e - 1 + 1) = 0).
  { unfold fexp, emin, prec, emax. lia. }
  rewrite H0. cbn [shr shr_m].
  assert (Hle : (e - 1 + 1 <=? emax - prec) = true)
    by (apply Z.leb_le; unfold prec, emax; lia).
  rewrite Hle. f_equal. lia.
Qed.

(** Division by 1 of a positive integer below 2^53 is exact. *)
Lemma truediv_1 (p : positive) : Zpos p < 2 ^ 53 -> truediv (Zpos p) 1 = of_int (Zpos p).
Proof.
  intros Hp. rewrite (of_int_pos_normal p Hp).
  apply digits2_pos_bound in Hp.
  unfold truediv. cbn [Z.ltb Z.compare xorb Z.abs].
  unfold SFdiv_core_binary. cbn [Zdigits2 digits2_pos].
  assert (He : Z.min (fexp prec emax (Zpos (digits2_pos p) + 0 - (1 + 0))) (0 - 0)
               = Zpos (digits2_pos p) - 54).
  { unfold fexp, emin, prec, emax. lia. }
  rewrite He.
  replace (0 - 0 - (Zpos (digits2_pos p) - 54)) with (54 - Zpos (digits2_pos p)) by lia.
  destruct (54 - Zpos (digits2_pos p)) as [|k|k] eqn:Ek; try lia.
  rewrite shiftl_pos, div_eucl_1.
  change (new_location 1 0) with loc_Exact.
  destruct (Pos.succ_pred_or k) as [->|Hk].
  - assert (Hd : Zpos (digits2_pos p) = 53) by lia.
    rewrite Hd. change (53 - 53) with 0. change (53 - 54) with (0 - 1).
    change (Pos.iter xO p 1) with (p~0)%positive. cbv iota.
    apply binary_round_aux_even; [exact Hd | lia].
  - rewrite <- Hk, Pos.iter_succ.
    destruct (Zpos (digits2_pos p) - 53) as [|k0|k0] eqn:E0; try lia.
    assert (Hk0 : k0 = Pos.pred k) by lia. subst k0.
    replace (Zpos (digits2_pos p) - 54) with (Zneg (Pos.pred k) - 1) by lia.
    apply binary_round_aux_even; [rewrite digits2_pos_iter_xO; lia | lia].
Qed.

Lemma SFsub_self (s : bool) (m : positive) (e : Z) :
  SFsub prec emax (S754_finite s m e) (S754_finite s m e) = S754_zero false.
Proof.
  unfold SFsub. rewrite Z.min_id. unfold shl_align. rewrite Z.sub_diag.
  reflexivity.
Qed.

(** The binary64 computation on one length below 2^53 gives +0.0. *)
Lemma variance_b64_single (c : Z) :
  0 <= c < 2 ^ 53 ->
  SFdiv prec emax
    (fold_left (SFadd prec emax)
       [SFmul prec emax (SFsub prec emax (of_int c) (truediv (sum_int [c]) 1))
                        (SFsub prec emax (of_int c) (truediv (sum_int [c]) 1))]
       (of_int 0))
    (of_int 1)
  = S754_zero false.
Proof.
  intros [H0 H1]. change (sum_int [c]) with (0 + c). rewrite Z.add_0_l.
  destruct c as [|p|p]; try lia; [reflexivity|].
  rewrite (truediv_1 p H1).
  destruct (of_int_pos_finite p H1) as (m & e & ->).
  rewrite SFsub_self. reflexivity.
Qed.

End B64Exact.

(** X1. In exact arithmetic the burstiness of a text is zero exactly when
    all its sentences have the same number of words. *)
Theorem burstiness_zero_iff_uniform (nlp : string -> list string) (text : string) :
  (analyze_burstiness (F:=Q) nlp text == 0)%Q
  <-> (forall x y, In x (sentence_lengths (nlp text)) ->
                   In y (sentence_lengths (nlp text)) -> x = y).
Proof.
  rewrite analyze_exact. apply VarianceFacts.population_variance_zero.
Qed.

(** X3. In exact arithmetic the burstiness of a text of two sentences with
    [a] and [b] words is [((a - b) / 2) ^ 2]. *)
Theorem burstiness_two_sentences
    (nlp : string -> list string) (text : string) (a b : Z) :
  sentence_lengths (nlp text) = [a; b] ->
  (analyze_burstiness (F:=Q) nlp text == ((inject_Z a - inject_Z b) / 2) ^ 2)%Q.
Proof.
  intros Hl. rewrite analyze_exact, Hl.
  apply VarianceFacts.population_variance_two.
Qed.

Lemma burstiness_two_sentences_witness :
  (analyze_burstiness (F:=Q) PeriodSegmenter.nlp "a b. c d e f g h i j."
   == ((inject_Z 2 - inject_Z 8) / 2) ^ 2)%Q.
Proof.
  apply (burstiness_two_sentences PeriodSegmenter.nlp "a b. c d e f g h i j." 2 8).
  reflexivity.
Defined.

(** X4. The burstiness of a text of one sentence is 0.0: in exact
    arithmetic, and in binary64 for a sentence of fewer than 2^53 words. *)
Theorem burstiness_single_sentence
    (nlp : string -> list string) (text sent : string) :
  nlp text = [sent] ->
  (analyze_burstiness (F:=Q) nlp text == 0)%Q
  /\ ((Z.of_nat (word_count sent) < 2 ^ 53)%Z ->
      analyze_burstiness (F:=B64.b64) nlp text = S754_zero false).
Proof.
  intros Hnlp. split.
  - rewrite analyze_exact. apply VarianceFacts.population_variance_zero.
    rewrite Hnlp. simpl. intros x y [<-|[]] [<-|[]]. reflexivity.
  - intros Hlt. unfold analyze_burstiness. rewrite Hnlp.
    apply (B64Exact.variance_b64_single (Z.of_nat (word_count sent))). lia.
Qed.

Lemma burstiness_single_sentence_witness :
  analyze_burstiness (F:=B64.b64) PeriodSegmenter.nlp "The cat sat on the mat."
  = S754_zero false.
Proof.
  apply (burstiness_single_sentence PeriodSegmenter.nlp "The cat sat on the mat."
           "The cat sat on the mat.").
  - reflexivity.
  - reflexivity.
Defined.

(** ** More on the noise injector *)

Section InjectorMore.

Variable rng : Type.
Variable random : rng -> Q * rng.
Variable randbelow : nat -> rng -> nat * rng.

Lemma startswith_any_match (alts : list string) (s : string) :
  startswith_any s alts = true -> exists rest, match_alternatives alts s = Some rest.
Proof.
  unfold startswith_any. induction alts as [|a alts IH]; simpl; [discriminate|].
  intros H. destruct (drop_prefix a s) as [rest|] eqn:E; [now exists rest|].
  apply orb_true_iff in H as [H|H]; [|now apply IH].
  apply prefix_drop_prefix in H as [rest Hr]. congruence.
Qed.

(** The text that step 1 produces does not start with an opener. *)
Lemma substitute_transition_no_opener (s_text : string) (g : rng) :
  startswith_any (fst (substitute_transition rng randbelow s_text g))
    (addition_openers ++ contrast_openers) = false.
Proof.
  unfold substitute_transition.
  destruct (startswith_any s_text addition_openers) eqn:Ea.
  - destruct (startswith_any_match _ _ Ea) as [rest Hrest].
    unfold choice, re_sub_opener. cbn [bind ret]. rewrite Hrest.
    destruct (randbelow _ g) as [i g']. cbn [fst].
    destruct i as [|[|[|[|[|i]]]]]; reflexivity.
  - destruct (startswith s_text "However") eqn:Eh.
    + assert (Ec : startswith_any s_text contrast_openers = true).
      { unfold startswith_any, contrast_openers. cbn [existsb]. now rewrite Eh. }
      destruct (startswith_any_match _ _ Ec) as [rest Hrest].
      unfold choice, re_sub_opener. cbn [bind ret]. rewrite Hrest.
      destruct (randbelow _ g) as [i g']. cbn [fst].
      destruct i as [|[|[|[|[|i]]]]]; reflexivity.
    + cbn [ret fst]. unfold startswith_any in *. rewrite existsb_app, Ea.
      unfold contrast_openers. cbn [existsb]. now rewrite Eh.
Qed.

(** What filler insertion returns, whatever the generator draws. *)
Lemma insert_filler_shape (s_text : string) (g : rng) :
  fst (insert_filler rng random randbelow s_text g) = s_text
  \/ exists idx i,
       1 <= idx
       /\ fst (insert_filler rng random randbelow s_text g)
          = join " " (list_insert idx (nth i filler_words "") (split s_text)).
Proof.
  unfold insert_filler, random_below, randint, choice. cbn [bind ret].
  destruct (random g) as [u g1]. destruct (Qltb u (1 # 10)); [|now left].
  destruct (5 <? List.length (split s_text)); [|now left].
  cbn [bind ret].
  destruct (randbelow _ g1) as [j g2]. destruct (randbelow _ g2) as [i g3].
  right. exists (1 + j), i. split; [lia | reflexivity].
Qed.

Lemma filler_word_count (i : nat) : word_count (nth i filler_words "") <= 2.
Proof.
  do 7 (destruct i as [|i]; [cbv; lia|]). destruct i; cbv; lia.
Qed.

Lemma last_app_nonempty (l l' : list string) (d : string) :
  l' <> [] -> last (l ++ l') d = last l' d.
Proof.
  intros Hne. induction l as [|x l IH]; [reflexivity|].
  simpl. destruct (l ++ l') eqn:E; [|exact IH].
  apply app_eq_nil in E as [_ E]. contradiction.
Qed.

(** A sentence without opener and with at most 5 words passes the loop
    body unchanged, apart from the stripping. *)
Lemma noise_sentence_plain (sent : string) (g : rng) :
  startswith_any (strip sent) (addition_openers ++ contrast_openers) = false ->
  word_count sent <= 5 ->
  fst (noise_sentence rng random randbelow sent g) = strip sent.
Proof.
  intros Hno Hwc. unfold noise_sentence. cbn [bind].
  rewrite substitute_transition_idle by exact Hno.
  apply insert_filler_idle. right.
  unfold word_count in Hwc. now rewrite InjectorStrings.split_strip.
Qed.

Lemma for_each_plain (sentences : list string) :
  Forall (fun sent =>
            startswith_any (strip sent) (addition_openers ++ contrast_openers) = false
            /\ word_count sent <= 5) sentences ->
  forall g, fst (for_each rng random randbelow sentences g) = map strip sentences.
Proof.
  induction 1 as [|sent rest [Hno Hwc] _ IH]; intros g; [reflexivity|].
  cbn [for_each bind].
  pose proof (noise_sentence_plain sent g Hno Hwc) as Hs.
  destruct (noise_sentence rng random randbelow sent g) as [s1 g1].
  specialize (IH g1).
  destruct (for_each rng random randbelow rest g1) as [m g2].
  cbn [fst ret] in *. now subst.
Qed.

(** The loop keeps the sentences in order, one output for each. *)
Lemma for_each_Forall2 (sentences : list string) :
  forall g,
  Forall2 (fun sent m => exists g', m = fst (noise_sentence rng random randbelow sent g'))
          sentences (fst (for_each rng random randbelow sentences g)).
Proof.
  induction sentences as [|sent rest IH]; intros g; [constructor|].
  cbn [for_each bind].
  destruct (noise_sentence rng random randbelow sent g) as [s1 g1] eqn:E1.
  specialize (IH g1).
  destruct (for_each rng random randbelow rest g1) as [m g2].
  cbn [fst ret] in *. constructor; [|exact IH].
  exists g. now rewrite E1.
Qed.

End InjectorMore.

(** X5. The injector keeps the sentences in order and emits exactly one
    text for each: its output is the join with single spaces of the loop
    body's results on the sentences of the segmentation. *)
Theorem inject_sentence_by_sentence
    (nlp : string -> list string) (rng : Type) (random : rng -> Q * rng)
    (randbelow : nat -> rng -> nat * rng) (text : string) (g : rng) :
  exists modified,
    fst (inject_linguistic_noise nlp rng random randbelow text g) = join " " modified
    /\ List.length modified = List.length (nlp text)
    /\ Forall2 (fun sent m =>
                  exists g', m = fst (noise_sentence rng random randbelow sent g'))
               (nlp text) modified.
Proof.
  unfold inject_linguistic_noise. cbn [bind].
  pose proof (for_each_Forall2 rng random randbelow (nlp text) g) as H2.
  destruct (for_each rng random randbelow (nlp text) g) as [modified g'].
  cbn [fst ret] in *. exists modified. repeat split; [|exact H2].
  symmetry. apply (Forall2_length H2).
Qed.

(** X6. After step 1 a sentence never starts with one of the four openers,
    whatever the generator picks; so step 1 applied again leaves the
    sentence as it is and draws nothing. *)
Theorem substitute_transition_once
    (rng : Type) (randbelow : nat -> rng -> nat * rng) (s_text : string) (g g2 : rng) :
  let out := fst (substitute_transition rng randbelow s_text g) in
  startswith_any out (addition_openers ++ contrast_openers) = false
  /\ substitute_transition rng randbelow out g2 = (out, g2).
Proof.
  intros out. subst out.
  pose proof (substitute_transition_no_opener rng randbelow s_text g) as Hno.
  split; [exact Hno|]. now apply substitute_transition_idle.
Qed.

(** X7. With a generator that draws below the bound, filler insertion never
    changes the last word of a sentence: the filler is never appended. *)
Theorem insert_filler_keeps_last_word
    (rng : Type) (random : rng -> Q * rng) (randbelow : nat -> rng -> nat * rng)
    (s_text : string) (g : rng) :
  (forall n g, 0 < n -> fst (randbelow n g) < n) ->
  last (split (fst (insert_filler rng random randbelow s_text g))) ""
  = last (split s_text) "".
Proof.
  intros Hlt.
  destruct (Qltb (fst (random g)) (1 # 10)) eqn:Hcoin.
  - destruct (Nat.lt_ge_cases 5 (List.length (split s_text))) as [Hlen|Hlen].
    + destruct (insert_filler_fires rng random randbelow Hlt s_text g Hcoin Hlen)
        as (idx & filler & Hidx & _ & ->).
      rewrite split_join_insert, app_assoc.
      assert (Hne : skipn idx (split s_text) <> []).
      { intros E. apply (f_equal (@List.length string)) in E.
        rewrite length_skipn in E. simpl in E. lia. }
      rewrite last_app_nonempty by exact Hne.
      rewrite <- (firstn_skipn idx (split s_text)) at 2.
      now rewrite last_app_nonempty by exact Hne.
    + now rewrite insert_filler_idle by now right.
  - now rewrite insert_filler_idle by now left.
Qed.

Lemma insert_filler_keeps_last_word_witness :
  last (split (fst (insert_filler ScriptedRandom.rng ScriptedRandom.random
                      ScriptedRandom.randbelow "this matters a lot to me." [50; 4; 4])))
       ""
  = "me.".
Proof.
  rewrite (insert_filler_keeps_last_word ScriptedRandom.rng ScriptedRandom.random
             ScriptedRandom.randbelow "this matters a lot to me." [50; 4; 4]
             scripted_randbelow_lt).
  reflexivity.
Defined.

(** X8. Filler insertion never removes a word and adds at most two,
    whatever the generator draws. *)
Theorem insert_filler_word_count_bounds
    (rng : Type) (random : rng -> Q * rng) (randbelow : nat -> rng -> nat * rng)
    (s_text : string) (g : rng) :
  word_count s_text
  <= word_count (fst (insert_filler rng random randbelow s_text g))
  <= word_count s_text + 2.
Proof.
  destruct (insert_filler_shape rng random randbelow s_text g) as [->|(idx & i & _ & ->)].
  - lia.
  - rewrite insert_word_count. pose proof (filler_word_count i). lia.
Qed.

(** X9. When no sentence starts with an opener and every sentence has at
    most 5 words, the injector only strips the sentences and joins them
    with single spaces, whatever the generator draws. *)
Theorem inject_plain_text
    (nlp : string -> list string) (rng : Type) (random : rng -> Q * rng)
    (randbelow : nat -> rng -> nat * rng) (text : string) (g : rng) :
  Forall (fun sent =>
            startswith_any (strip sent) (addition_openers ++ contrast_openers) = false
            /\ word_count sent <= 5) (nlp text) ->
  fst (inject_linguistic_noise nlp rng random randbelow text g)
  = join " " (map strip (nlp text)).
Proof.
  intros Hplain. unfold inject_linguistic_noise. cbn [bind].
  pose proof (for_each_plain rng random randbelow (nlp text) Hplain g) as Hm.
  destruct (for_each rng random randbelow (nlp text) g) as [modified g'].
  cbn [fst ret] in *. now subst.
Qed.

Lemma inject_plain_text_witness :
  fst (inject_linguistic_noise PeriodSegmenter.nlp ScriptedRandom.rng
         ScriptedRandom.random ScriptedRandom.randbelow
         "The cat sat.    A dog ran." [0; 0; 0])
  = "The cat sat. A dog ran.".
Proof.
  apply (inject_plain_text PeriodSegmenter.nlp ScriptedRandom.rng
           ScriptedRandom.random ScriptedRandom.randbelow
           "The cat sat.    A dog ran." [0; 0; 0]).
  repeat constructor.
Defined.

(** ** More on the rhythm optimizer *)

Module MergeStrings.

Lemma rstrip_where_suffix (p : ascii -> bool) (s : string) :
  exists suffix, s = (rstrip_where p s ++ suffix)%string /\ all_chars p suffix = true.
Proof.
  induction s as [|c s (suffix & Hs & Hall)]; [now exists ""|].
  cbn [rstrip_where].
  destruct (is_empty (rstrip_where p s)) eqn:He; cbn [andb].
  - apply is_empty_true in He. rewrite He in Hs. simpl in Hs. subst s.
    destruct (p c) eqn:Hc.
    + exists (String c suffix). split; [reflexivity|]. simpl. now rewrite Hc.
    + exists suffix. rewrite He. now split.
  - exists suffix. split; [|exact Hall]. simpl. now rewrite <- Hs.
Qed.

Lemma rstrip_where_ends (p : ascii -> bool) (s : string) :
  ends_with p (rstrip_where p s) = false.
Proof.
  induction s as [|c s IH]; [reflexivity|].
  cbn [rstrip_where].
  destruct (rstrip_where p s) as [|c' r] eqn:Er; cbn [is_empty andb].
  - destruct (p c) eqn:Hc; [reflexivity | simpl; exact Hc].
  - exact IH.
Qed.

Lemma split_go_comma_nonempty (a cur : string) : split_go cur (a ++ ",") <> [].
Proof.
  revert cur. induction a as [|c a IH]; intros cur.
  - simpl. unfold flush. now rewrite is_empty_snoc.
  - simpl. destruct (is_space c); [|apply IH].
    intros E. apply app_eq_nil in E as [_ E]. now apply (IH "").
Qed.

(** The words of [a ++ ", and " ++ b]. *)
Lemma split_and (a b : string) :
  split (a ++ ", and " ++ b) = split (a ++ ",") ++ "and" :: split b.
Proof.
  unfold split.
  replace (a ++ ", and " ++ b)%string
    with ((a ++ ",") ++ String " " ("and" ++ String " " b))%string
    by (now rewrite append_assoc).
  rewrite (split_go_separator (a ++ ",") _ "" " "%char) by reflexivity.
  rewrite (split_go_separator "and" b "" " "%char) by reflexivity.
  reflexivity.
Qed.

End MergeStrings.

Section OptimizerMore.

Variable rng : Type.
Variable random : rng -> Q * rng.

(** Without a pair of short sentences at the cursor, the generator is not
    consulted. *)
Lemma merge_condition_idle (sents : list string) (i : nat) (curr : string) (g : rng) :
  (i + 1 < List.length sents ->
   10 <= word_count curr \/ 10 <= word_count (nth (i + 1) sents "")) ->
  merge_condition rng random sents i curr g = (false, g).
Proof.
  intros Hlong. unfold merge_condition.
  destruct (i + 1 <? List.length sents) eqn:E1; [|reflexivity].
  apply Nat.ltb_lt in E1. specialize (Hlong E1).
  destruct (word_count curr <? 10) eqn:E2; [|reflexivity].
  destruct (word_count (nth (i + 1) sents "") <? 10) eqn:E3; [|reflexivity].
  rewrite Nat.ltb_lt in *. lia.
Qed.

Lemma rhythm_loop_plain (fuel : nat) (sents : list string) :
  (forall j, j + 1 < List.length sents ->
             10 <= word_count (nth j sents "")
             \/ 10 <= word_count (nth (j + 1) sents "")) ->
  forall (i : nat) (new_text : list string) (g : rng),
  List.length sents - i <= fuel ->
  rhythm_loop rng random fuel sents i new_text g
  = (new_text ++ map strip (skipn i sents), g).
Proof.
  intros Hlong.
  induction fuel as [|fuel IH]; intros i new_text g Hfuel.
  - rewrite skipn_all2 by lia. simpl. now rewrite app_nil_r.
  - cbn [rhythm_loop].
    destruct (i <? List.length sents) eqn:Ei.
    + apply Nat.ltb_lt in Ei. cbn [bind].
      rewrite merge_condition_idle.
      * rewrite IH by lia. rewrite (skipn_cons_nth sents i) by lia.
        replace (i + 1) with (S i) by lia.
        simpl. now rewrite <- app_assoc.
      * intros Hi. unfold word_count. rewrite InjectorStrings.split_strip.
        now apply Hlong.
    + apply Nat.ltb_ge in Ei. rewrite skipn_all2 by lia. simpl.
      now rewrite app_nil_r.
Qed.

End OptimizerMore.

(** X10. When no two adjacent sentences have both fewer than 10 words, the
    optimizer merges nothing and does not consult the generator: for two
    sentences or more it returns the stripped sentences joined with single
    spaces. *)
Theorem optimize_rhythm_no_short_pair
    (nlp : string -> list string) (rng : Type) (random : rng -> Q * rng)
    (text : string) (g : rng) :
  2 <= List.length (nlp text) ->
  (forall j, j + 1 < List.length (nlp text) ->
             10 <= word_count (nth j (nlp text) "")
             \/ 10 <= word_count (nth (j + 1) (nlp text) "")) ->
  optimize_rhythm nlp rng random text g = (join " " (map strip (nlp text)), g).
Proof.
  intros Hlen Hlong. unfold optimize_rhythm.
  apply Nat.ltb_ge in Hlen. rewrite Hlen. cbn [bind].
  rewrite (rhythm_loop_plain rng random _ _ Hlong) by lia.
  reflexivity.
Qed.

Lemma optimize_rhythm_no_short_pair_witness :
  optimize_rhythm PeriodSegmenter.nlp ScriptedRandom.rng ScriptedRandom.random
    "a b c d e f g h i j.   Short one.  k l m n o p q r s t." [0; 0]
  = ("a b c d e f g h i j. Short one. k l m n o p q r s t.", [0; 0]).
Proof.
  apply (optimize_rhythm_no_short_pair PeriodSegmenter.nlp ScriptedRandom.rng
           ScriptedRandom.random
           "a b c d e f g h i j.   Short one.  k l m n o p q r s t." [0; 0]).
  - simpl. lia.
  - intros j Hj. simpl in Hj.
    destruct j as [|[|j]]; [left | right | lia]; cbv; lia.
Defined.

(** X11. In a merged unit the text before [", and "] is the current
    sentence without its trailing full stops, all of them and nothing else;
    the unit has the words of the next sentence, the word "and" and at least
    one word before it. *)
Theorem merged_unit_shape (curr next : string) :
  (exists dots, curr = (rstrip_dot curr ++ dots)%string /\ all_chars is_dot dots = true)
  /\ ends_with is_dot (rstrip_dot curr) = false
  /\ split (combine curr next) = split (rstrip_dot curr ++ ",") ++ "and" :: split next
  /\ word_count next + 2 <= word_count (combine curr next).
Proof.
  split; [apply (MergeStrings.rstrip_where_suffix is_dot)|].
  split; [apply (MergeStrings.rstrip_where_ends is_dot)|].
  assert (Hs : split (combine curr next)
               = split (rstrip_dot curr ++ ",") ++ "and" :: split next).
  { unfold combine. now rewrite MergeStrings.split_and, InjectorStrings.split_strip. }
  split; [exact Hs|].
  unfold word_count. rewrite Hs, length_app. simpl.
  pose proof (MergeStrings.split_go_comma_nonempty (rstrip_dot curr) "") as Hne.
  fold (split (rstrip_dot curr ++ ",")) in Hne.
  destruct (split (rstrip_dot curr ++ ",")); [contradiction | simpl; lia].
Qed.

(** X12. The loop of the optimizer ends within [len(sents)] iterations:
    allowing more iterations does not change what it returns, and the units
    it returns cover all the sentences. *)
Theorem rhythm_loop_terminates
    (rng : Type) (random : rng -> Q * rng) (sents : list string) (more : nat) (g : rng) :
  rhythm_loop rng random (List.length sents + more) sents 0 [] g
  = rhythm_loop rng random (List.length sents) sents 0 [] g
  /\ units_of sents (fst (rhythm_loop rng random (List.length sents) sents 0 [] g)).
Proof.
  split.
  - apply rhythm_loop_enough_fuel; lia.
  - destruct (rhythm_loop_units rng random (List.length sents) sents 0 [] g)
      as (us & Hus & Hunits); [lia|].
    rewrite Hus. exact Hunits.
Qed.

(** ** More on the pipeline *)

Module MetricsFacts.

Import B64 B64Sign B64Facts.

Lemma round_half_even_nonneg (q : Q) : (0 <= q)%Q -> (0 <= round_half_even q)%Z.
Proof.
  intros Hq. unfold round_half_even.
  pose proof (Qfloor_resp_le 0 q Hq) as Hf. change (Qfloor 0) with 0%Z in Hf.
  destruct (q - inject_Z (Qfloor q) ?= 1 # 2)%Q; [destruct (Z.even _)| |]; lia.
Qed.

Lemma Qround2_nonneg (q : Q) : (0 <= q)%Q -> (0 <= Qround2 q)%Q.
Proof.
  intros Hq. unfold Qround2, Qdiv. apply Qmult_le_0_compat; [|discriminate].
  change 0%Q with (inject_Z 0). rewrite <- Zle_Qle.
  apply round_half_even_nonneg. apply Qmult_le_0_compat; [exact Hq | discriminate].
Qed.

(** [round(x, 2)] keeps a float that is not negative as such. *)
Lemma round2_signed (x : b64) : signed false x -> signed false (round2 x).
Proof.
  destruct x as [s|s| |s m e]; simpl; intros Hs; try exact Hs.
  subst s. apply truediv_signed_false; [|lia].
  apply round_half_even_nonneg.
  apply Qmult_le_0_compat; [apply Qabs_nonneg | discriminate].
Qed.

Lemma analyze_b64_signed (nlp : string -> list string) (text : string) :
  Forall (fun x => x < 2 ^ 53)%Z (sentence_lengths (nlp text)) ->
  (Z.of_nat (List.length (nlp text)) < 2 ^ 53)%Z ->
  signed false (analyze_burstiness (F:=b64) nlp text).
Proof.
  intros H53 Hn. unfold analyze_burstiness.
  pose proof (sentence_lengths_nonneg (nlp text)) as H0.
  assert (Hlen : List.length (sentence_lengths (nlp text)) = List.length (nlp text))
    by apply length_map.
  destruct (sentence_lengths (nlp text)) as [|x l] eqn:E; [reflexivity|].
  apply (variance_b64_signed (x :: l)); try assumption.
  - discriminate.
  - now rewrite Hlen.
Qed.

End MetricsFacts.

(** X13. The two burstiness metrics of the result are never negative: in
    exact arithmetic for every text, and in binary64 whenever the word
    counts and the number of sentences, of the input for the initial metric
    and of the humanized text for the final one, are below 2^53. *)
Theorem process_metrics_nonneg
    (nlp : string -> list string) (rng : Type) (random : rng -> Q * rng)
    (randbelow : nat -> rng -> nat * rng) (text : string) (g : rng) :
  let small t :=
    Forall (fun x => x < 2 ^ 53)%Z (sentence_lengths (nlp t))
    /\ (Z.of_nat (List.length (nlp t)) < 2 ^ 53)%Z in
  let rq := fst (process (F:=Q) nlp rng random randbelow text g) in
  let rb := fst (process (F:=B64.b64) nlp rng random randbelow text g) in
  (0 <= initial_burstiness (metrics rq))%Q
  /\ (0 <= final_burstiness (metrics rq))%Q
  /\ (small text ->
      SFleb (S754_zero false) (initial_burstiness (metrics rb)) = true)
  /\ (small (humanized rb) ->
      SFleb (S754_zero false) (final_burstiness (metrics rb)) = true).
Proof.
  intros small rq rb.
  pose proof (process_metrics nlp rng random randbelow (F:=Q) text g) as Hq.
  pose proof (process_metrics nlp rng random randbelow (F:=B64.b64) text g) as Hb.
  fold rq in Hq. fold rb in Hb. cbv zeta in Hq, Hb. rewrite Hq, Hb.
  cbn [initial_burstiness final_burstiness].
  split; [|split; [|split]].
  - apply MetricsFacts.Qround2_nonneg. rewrite analyze_exact.
    apply population_variance_nonneg.
  - apply MetricsFacts.Qround2_nonneg. rewrite analyze_exact.
    apply population_variance_nonneg.
  - intros [H53 Hn]. apply B64Facts.signed_false_leb, MetricsFacts.round2_signed.
    now apply MetricsFacts.analyze_b64_signed.
  - intros [H53 Hn]. apply B64Facts.signed_false_leb, MetricsFacts.round2_signed.
    now apply MetricsFacts.analyze_b64_signed.
Qed.

Lemma process_metrics_nonneg_witness :
  SFleb (S754_zero false)
    (initial_burstiness
       (metrics (fst (process (F:=B64.b64) PeriodSegmenter.nlp ScriptedRandom.rng
                        ScriptedRandom.random ScriptedRandom.randbelow
                        "Furthermore, this matters. The cat sat." [1; 500; 500; 100]))))
  = true.
Proof.
  apply (process_metrics_nonneg PeriodSegmenter.nlp ScriptedRandom.rng
           ScriptedRandom.random ScriptedRandom.randbelow
           "Furthermore, this matters. The cat sat." [1; 500; 500; 100]).
  split; [repeat constructor | reflexivity].
Defined.

(** X14. A text in which the segmenter finds no sentence, a text of
    whitespace for instance, is not returned as it is: when the segmenter
    finds no sentence in the empty text either, the humanized text is the
    empty text, the metrics are those of the empty input, and nothing is
    drawn. *)
Theorem process_no_sentence
    (nlp : string -> list string) (rng : Type) (random : rng -> Q * rng)
    (randbelow : nat -> rng -> nat * rng) (F : Type) (HF : PyFloat F)
    (text : string) (g : rng) :
  nlp text = [] -> nlp "" = [] ->
  process nlp rng random randbelow text g
  = ({| humanized := "";
        metrics := {| initial_burstiness := fround2 float_zero;
                      final_burstiness := fround2 float_zero;
                      improvement := fround2 (fsub float_zero float_zero) |} |}, g).
Proof.
  intros Htext Hempty. unfold process. cbn [bind].
  rewrite inject_no_sentence by exact Htext.
  rewrite optimize_few_sentences by (rewrite Hempty; simpl; lia).
  cbn [ret]. now rewrite !analyze_no_sentence by assumption.
Qed.

Lemma process_no_sentence_witness :
  humanized (fst (process (F:=B64.b64) PeriodSegmenter.nlp ScriptedRandom.rng
                    ScriptedRandom.random ScriptedRandom.randbelow "   " [3]))
  = "".
Proof.
  rewrite (process_no_sentence PeriodSegmenter.nlp ScriptedRandom.rng
             ScriptedRandom.random ScriptedRandom.randbelow B64.b64 B64.binary64_float
             "   " [3]); reflexivity.
Defined.

Section OptimizerFailingDraws.

Variable rng : Type.
Variable random : rng -> Q * rng.

(** Every draw of [random.random()] is 0.3 or more. *)
Hypothesis draws_fail : forall g, Qltb (fst (random g)) (3 # 10) = false.

Lemma merge_condition_fails (sents : list string) (i : nat) (curr : string) (g : rng) :
  fst (merge_condition rng random sents i curr g) = false.
Proof.
  pose proof (merge_condition_true rng random sents i curr g) as [H _].
  destruct (fst (merge_condition rng random sents i curr g)); [|reflexivity].
  destruct (H eq_refl) as (_ & _ & _ & Hc). now rewrite draws_fail in Hc.
Qed.

Lemma rhythm_loop_failing_draws (fuel : nat) (sents : list string) :
  forall (i : nat) (new_text : list string) (g : rng),
  List.length sents - i <= fuel ->
  fst (rhythm_loop rng random fuel sents i new_text g)
  = new_text ++ map strip (skipn i sents).
Proof.
  induction fuel as [|fuel IH]; intros i new_text g Hfuel.
  - rewrite skipn_all2 by lia. simpl. now rewrite app_nil_r.
  - cbn [rhythm_loop].
    destruct (i <? List.length sents) eqn:Ei.
    + apply Nat.ltb_lt in Ei. cbn [bind].
      pose proof (merge_condition_fails sents i (strip (nth i sents "")) g) as Hm.
      destruct (merge_condition rng random sents i (strip (nth i sents "")) g)
        as [merge g1]. cbn [fst] in Hm. subst merge.
      rewrite IH by lia. rewrite (skipn_cons_nth sents i) by lia.
      replace (i + 1) with (S i) by lia.
      simpl. now rewrite <- app_assoc.
    + apply Nat.ltb_ge in Ei. rewrite skipn_all2 by lia. simpl.
      now rewrite app_nil_r.
Qed.

End OptimizerFailingDraws.

(** X15. With a generator whose every draw of [random.random()] is 0.3 or
    more, the optimizer merges nothing: for two sentences or more its output
    is the stripped sentences joined with single spaces. *)
Theorem optimize_rhythm_failing_draws
    (nlp : string -> list string) (rng : Type) (random : rng -> Q * rng)
    (text : string) (g : rng) :
  (forall g, Qltb (fst (random g)) (3 # 10) = false) ->
  2 <= List.length (nlp text) ->
  fst (optimize_rhythm nlp rng random text g) = join " " (map strip (nlp text)).
Proof.
  intros Hfail Hlen. unfold optimize_rhythm.
  apply Nat.ltb_ge in Hlen. rewrite Hlen. cbn [bind].
  pose proof (rhythm_loop_failing_draws rng random Hfail
                (List.length (nlp text)) (nlp text) 0 [] g ltac:(lia)) as Hl.
  destruct (rhythm_loop rng random (List.length (nlp text)) (nlp text) 0 [] g)
    as [new_text g'].
  cbn [fst ret] in *. now subst.
Qed.

Lemma optimize_rhythm_failing_draws_witness :
  fst (optimize_rhythm PeriodSegmenter.nlp ConstantRandom.rng ConstantRandom.random
         "The cat sat.   A dog ran." tt)
  = "The cat sat. A dog ran.".
Proof.
  apply (optimize_rhythm_failing_draws PeriodSegmenter.nlp ConstantRandom.rng
           ConstantRandom.random "The cat sat.   A dog ran." tt).
  - intros g. reflexivity.
  - simpl. lia.
Defined.

(** ** The error of a binary64 subtraction *)

Module B64Rounding.

Import B64 B64Sign B64Facts.

Local Open Scope Z_scope.

Lemma bpow_pos (e : Z) : (0 < bpow e)%Q.
Proof. apply Qpower_0_lt. reflexivity. Qed.

Lemma bpow_add (a b : Z) : (bpow (a + b) == bpow a * bpow b)%Q.
Proof. apply Qpower_plus. discriminate. Qed.

Lemma bpow_le (a b : Z) : a <= b -> (bpow a <= bpow b)%Q.
Proof. intros H. apply Qpower_le_compat_l; [exact H | discriminate]. Qed.

Lemma bpow_lt_inv (a b : Z) : (bpow a < bpow b)%Q -> a < b.
Proof. intros H. apply (Qpower_lt_compat_l_inv 2); [exact H | reflexivity]. Qed.

Lemma bpow_Z (k : Z) : 0 <= k -> (inject_Z (2 ^ k) == bpow k)%Q.
Proof. intros H. now apply Zpower_Qpower. Qed.

Lemma F2Q_shift (m e k : Z) : 0 <= k -> (F2Q (m * 2 ^ k) e == F2Q m (e + k))%Q.
Proof.
  intros Hk. unfold F2Q. rewrite inject_Z_mult, bpow_add, (bpow_Z k Hk). ring.
Qed.

Lemma F2Q_le (m m' e : Z) : m <= m' -> (F2Q m e <= F2Q m' e)%Q.
Proof.
  intros H. unfold F2Q. apply Qmult_le_compat_r.
  - now rewrite <- Zle_Qle.
  - apply Qlt_le_weak, bpow_pos.
Qed.

Lemma F2Q_lt (m m' e : Z) : m < m' -> (F2Q m e < F2Q m' e)%Q.
Proof.
  intros H. unfold F2Q. apply Qmult_lt_compat_r.
  - apply bpow_pos.
  - now rewrite <- Zlt_Qlt.
Qed.

Lemma F2Q_succ (m e : Z) : (F2Q (m + 1) e == F2Q m e + bpow e)%Q.
Proof. unfold F2Q. rewrite inject_Z_plus. change (inject_Z 1) with 1%Q. ring. Qed.

(** The value of a finite float. *)
Lemma to_Q_finite (s : bool) (m : positive) (e : Z) :
  (to_Q (S754_finite s m e) == if s then - F2Q (Zpos m) e else F2Q (Zpos m) e)%Q.
Proof.
  assert (H : (match e with
               | Zneg p => (Zpos m # Pos.pow 2 p)
               | _ => inject_Z (Zpos m * 2 ^ e)
               end == F2Q (Zpos m) e)%Q).
  { destruct e as [|p|p].
    - unfold F2Q, bpow. rewrite Z.pow_0_r, Z.mul_1_r.
      change ((2 ^ 0)%Q) with 1%Q. ring.
    - unfold F2Q. rewrite inject_Z_mult, (bpow_Z (Zpos p)) by lia. reflexivity.
    - unfold F2Q. rewrite Qmake_Qdiv.
      change (Zneg p) with (- Zpos p). unfold bpow. rewrite Qpower_opp.
      rewrite Pos2Z.inj_pow, (Zpower_Qpower 2 (Zpos p)) by lia. reflexivity. }
  unfold to_Q. destruct s; now rewrite H.
Qed.

Lemma digits2_pos_upper (p : positive) : Zpos p < 2 ^ Zpos (digits2_pos p).
Proof.
  induction p as [p IH|p IH|]; simpl digits2_pos.
  - rewrite Pos2Z.inj_succ, Z.pow_succ_r by lia. lia.
  - rewrite Pos2Z.inj_succ, Z.pow_succ_r by lia. lia.
  - reflexivity.
Qed.

Lemma pos_iter_xO (k p : positive) : Zpos (Pos.iter xO p k) = Zpos p * 2 ^ Zpos k.
Proof.
  induction k as [|k IH] using Pos.peano_ind.
  - simpl. lia.
  - rewrite Pos.iter_succ, Pos2Z.inj_succ, Z.pow_succ_r by lia.
    rewrite (Pos2Z.inj_xO (Pos.iter xO p k)), IH. lia.
Qed.

(** One shift to the right halves the mantissa; [k] shifts divide it by
    [2 ^ k]. *)
Lemma shr_1_div (mrs : shr_record) :
  0 <= shr_m mrs -> shr_m (shr_1 mrs) = shr_m mrs / 2.
Proof.
  intros H. rewrite <- Z.div2_div. destruct mrs as [m r s]. simpl in *.
  destruct m as [|[p|p|]|p]; try reflexivity; lia.
Qed.

Lemma pow_xO (k : positive) : 2 ^ Zpos k~0 = 2 ^ Zpos k * 2 ^ Zpos k.
Proof.
  rewrite (Pos2Z.inj_xO k). replace (2 * Zpos k) with (Zpos k + Zpos k) by lia.
  now rewrite Z.pow_add_r by lia.
Qed.

Lemma pow_xI (k : positive) : 2 ^ Zpos k~1 = 2 * (2 ^ Zpos k * 2 ^ Zpos k).
Proof.
  rewrite (Pos2Z.inj_xI k). replace (2 * Zpos k + 1) with (Z.succ (Zpos k + Zpos k)) by lia.
  now rewrite Z.pow_succ_r, Z.pow_add_r by lia.
Qed.

Lemma iter_shr_1_div (k : positive) :
  forall mrs, 0 <= shr_m mrs ->
  shr_m (iter_pos shr_1 k mrs) = shr_m mrs / 2 ^ Zpos k.
Proof.
  induction k as [k IH|k IH|]; intros mrs H; cbn [iter_pos].
  - assert (Hp : 0 < 2 ^ Zpos k) by (apply Z.pow_pos_nonneg; lia).
    rewrite IH by (apply iter_shr_1_nonneg, shr_1_nonneg, H).
    rewrite IH by (apply shr_1_nonneg, H).
    rewrite shr_1_div by exact H.
    rewrite pow_xI, !Z.div_div by lia.
    f_equal; try lia.
  - assert (Hp : 0 < 2 ^ Zpos k) by (apply Z.pow_pos_nonneg; lia).
    rewrite IH by (apply iter_shr_1_nonneg, H).
    rewrite IH by exact H.
    now rewrite pow_xO, Z.div_div by lia.
  - rewrite shr_1_div by exact H. reflexivity.
Qed.

Lemma shr_record_of_loc_m (m : Z) (l : location) : shr_m (shr_record_of_loc m l) = m.
Proof. destruct l as [|[ | | ]]; reflexivity. Qed.

Lemma round_nearest_even_range (m : Z) (l : location) :
  m <= round_nearest_even m l <= m + 1.
Proof.
  destruct l as [|[ | | ]]; simpl; try lia. destruct (Z.even m); lia.
Qed.

Lemma bpow_m11 : (bpow (-11) == 1 # 2048)%Q.
Proof. reflexivity. Qed.

Lemma bpow_41 : (bpow 41 == inject_Z (2 ^ 41))%Q.
Proof. reflexivity. Qed.

Lemma bpow_42 : (bpow 42 == inject_Z (2 ^ 42))%Q.
Proof. reflexivity. Qed.

(** A mantissa is at least the power of 2 of its number of digits minus 1. *)
Lemma F2Q_digits (m : positive) (e : Z) :
  (bpow (Zpos (digits2_pos m) - 1 + e) <= F2Q (Zpos m) e)%Q.
Proof.
  pose proof (digits2_pos_lower m) as Hl.
  assert (Hd : 0 <= Zpos (digits2_pos m) - 1) by lia.
  apply (F2Q_le _ _ e) in Hl.
  assert (E : (F2Q (2 ^ (Zpos (digits2_pos m) - 1)) e
               == bpow (Zpos (digits2_pos m) - 1 + e))%Q).
  { unfold F2Q. rewrite (bpow_Z _ Hd), <- bpow_add. reflexivity. }
  now rewrite <- E.
Qed.

(** The first step of a rounding: the mantissa stays at its exponent, or it
    is shifted to an exponent of -11 at most, where it is the floor of the
    value. *)
Lemma shr_fexp_value (m : positive) (e : Z) (l : location) :
  (F2Q (Zpos m) e < bpow 42)%Q ->
  let p := shr_fexp prec emax (Zpos m) e l in
  p = (shr_record_of_loc (Zpos m) l, e)
  \/ (snd p <= -11 /\ 0 <= shr_m (fst p)
      /\ (F2Q (shr_m (fst p)) (snd p) <= F2Q (Zpos m) e)%Q
      /\ (F2Q (Zpos m) e < F2Q (shr_m (fst p) + 1) (snd p))%Q).
Proof.
  intros Hb p. subst p. unfold shr_fexp, shr. cbn [Zdigits2].
  assert (Hde : Zpos (digits2_pos m) + e <= 42).
  { pose proof (F2Q_digits m e) as Hd.
    assert (Hlt : (bpow (Zpos (digits2_pos m) - 1 + e) < bpow 42)%Q)
      by (eapply Qle_lt_trans; eassumption).
    apply bpow_lt_inv in Hlt. lia. }
  destruct (fexp prec emax (Zpos (digits2_pos m) + e) - e) as [|k|k] eqn:Ek;
    [now left | | now left].
  right. cbn [fst snd].
  assert (He : e + Zpos k <= -11).
  { unfold fexp, emin, prec, emax in Ek. lia. }
  assert (H0 : 0 <= shr_m (shr_record_of_loc (Zpos m) l))
    by (rewrite shr_record_of_loc_m; lia).
  rewrite (iter_shr_1_div k _ H0), shr_record_of_loc_m.
  assert (Hp : 0 < 2 ^ Zpos k) by (apply Z.pow_pos_nonneg; lia).
  split; [exact He|]. split; [apply Z.div_pos; lia|].
  split.
  - rewrite <- F2Q_shift by lia. apply F2Q_le.
    rewrite Z.mul_comm. apply Z.mul_div_le. exact Hp.
  - rewrite <- F2Q_shift by lia. apply F2Q_lt.
    pose proof (Z.mul_succ_div_gt (Zpos m) (2 ^ Zpos k) Hp). nia.
Qed.

Lemma shr_fexp_zero (e : Z) (l : location) :
  shr_m (fst (shr_fexp prec emax 0 e l)) = 0.
Proof.
  unfold shr_fexp, shr.
  destruct (fexp prec emax (Zdigits2 0 + e) - e) as [|k|k]; cbn [fst];
    try apply shr_record_of_loc_m.
  rewrite iter_shr_1_div by (rewrite shr_record_of_loc_m; lia).
  now rewrite shr_record_of_loc_m.
Qed.

Lemma F2Q_zero (e : Z) : (F2Q 0 e == 0)%Q.
Proof. unfold F2Q. ring. Qed.

Lemma F2Q_one (e : Z) : (F2Q 1 e == bpow e)%Q.
Proof. unfold F2Q. ring. Qed.

Lemma to_Q_zero (s : bool) (a : Q) : (a == 0)%Q ->
  (to_Q (S754_zero s) == if s then - a else a)%Q.
Proof. intros H. destruct s; cbn [to_Q]; rewrite H; reflexivity. Qed.

(** The rounding of a mantissa whose value is below 2^41: the result is
    zero or finite, has the sign asked for, and is within 2^-10 of the
    value. *)
Lemma binary_round_aux_error (s : bool) (m : positive) (e : Z) :
  (F2Q (Zpos m) e < bpow 41)%Q ->
  exists a : Q,
    is_finite (binary_round_aux prec emax s (Zpos m) e loc_Exact)
    /\ (to_Q (binary_round_aux prec emax s (Zpos m) e loc_Exact)
        == if s then - a else a)%Q
    /\ (- (1 # 1024) <= a - F2Q (Zpos m) e <= 1 # 1024)%Q.
Proof.
  intros Hb.
  pose proof bpow_41 as H41. pose proof bpow_42 as H42.
  change (inject_Z (2 ^ 41)) with (2199023255552 # 1)%Q in H41.
  change (inject_Z (2 ^ 42)) with (4398046511104 # 1)%Q in H42.
  assert (Hb42 : (F2Q (Zpos m) e < bpow 42)%Q) by lra.
  assert (Hv0 : (0 <= F2Q (Zpos m) e)%Q).
  { rewrite <- (F2Q_zero e). apply F2Q_le. lia. }
  assert (Hfin : forall x, x <= -11 -> (x <=? emax - prec) = true).
  { intros x Hx. apply Z.leb_le. unfold emax, prec. lia. }
  unfold binary_round_aux.
  destruct (shr_fexp_value m e loc_Exact Hb42) as [Hid | (He1 & Hm1 & Hlo & Hhi)].
  - rewrite Hid.
    cbn [shr_m loc_of_shr_record shr_record_of_loc round_nearest_even].
    rewrite Hid. cbn [shr_m shr_record_of_loc].
    assert (He : (e <=? emax - prec) = true).
    { apply Z.leb_le.
      assert (Hl : (bpow e < bpow 41)%Q).
      { eapply Qle_lt_trans; [|exact Hb]. rewrite <- F2Q_one. apply F2Q_le. lia. }
      apply bpow_lt_inv in Hl. unfold emax, prec. lia. }
    rewrite He. exists (F2Q (Zpos m) e).
    split; [exact I|]. split; [apply to_Q_finite | lra].
  - destruct (shr_fexp prec emax (Zpos m) e loc_Exact) as [mrs1 e1] eqn:E1.
    cbn [fst snd] in He1, Hm1, Hlo, Hhi.
    pose proof (round_nearest_even_range (shr_m mrs1) (loc_of_shr_record mrs1)) as Hr.
    set (m2 := round_nearest_even (shr_m mrs1) (loc_of_shr_record mrs1)) in *.
    assert (Hbe1 : (bpow e1 <= 1 # 2048)%Q).
    { rewrite <- bpow_m11. now apply bpow_le. }
    pose proof (bpow_pos e1) as Hp1.
    rewrite F2Q_succ in Hhi.
    assert (Hm2lo : (F2Q (shr_m mrs1) e1 <= F2Q m2 e1)%Q) by (apply F2Q_le; lia).
    assert (Hm2hi : (F2Q m2 e1 <= F2Q (shr_m mrs1) e1 + bpow e1)%Q).
    { rewrite <- F2Q_succ. apply F2Q_le. lia. }
    destruct m2 as [|p2|p2] eqn:Em2; [| |lia].
    + pose proof (shr_fexp_zero e1 loc_Exact) as Hz.
      destruct (shr_fexp prec emax 0 e1 loc_Exact) as [mrs2 e2].
      cbn [fst] in Hz. rewrite Hz.
      exists 0%Q. split; [exact I|]. split; [now apply to_Q_zero|].
      rewrite F2Q_zero in Hm2lo, Hm2hi. lra.
    + assert (Hb2 : (F2Q (Zpos p2) e1 < bpow 42)%Q) by lra.
      destruct (shr_fexp_value p2 e1 loc_Exact Hb2) as [Hid2 | (He2 & Hm3 & Hlo2 & Hhi2)].
      * rewrite Hid2. cbn [shr_m shr_record_of_loc].
        rewrite (Hfin e1 He1). exists (F2Q (Zpos p2) e1).
        split; [exact I|]. split; [apply to_Q_finite | lra].
      * destruct (shr_fexp prec emax (Zpos p2) e1 loc_Exact) as [mrs2 e2] eqn:E2.
        cbn [fst snd] in He2, Hm3, Hlo2, Hhi2.
        assert (Hbe2 : (bpow e2 <= 1 # 2048)%Q).
        { rewrite <- bpow_m11. now apply bpow_le. }
        pose proof (bpow_pos e2) as Hp2.
        rewrite F2Q_succ in Hhi2.
        destruct (shr_m mrs2) as [|p3|p3] eqn:Em3; [| |lia].
        -- exists 0%Q. split; [exact I|]. split; [now apply to_Q_zero|].
           rewrite F2Q_zero in Hlo2, Hhi2. lra.
        -- rewrite (Hfin e2 He2). exists (F2Q (Zpos p3) e2).
           split; [exact I|]. split; [apply to_Q_finite | lra].
Qed.

Lemma F2Q_opp (m e : Z) : (F2Q (- m) e == - F2Q m e)%Q.
Proof. unfold F2Q. rewrite inject_Z_opp. ring. Qed.

Lemma F2Q_sub (a b e : Z) : (F2Q (a - b) e == F2Q a e - F2Q b e)%Q.
Proof.
  unfold F2Q. replace (a - b) with (a + - b) by lia.
  rewrite inject_Z_plus, inject_Z_opp. ring.
Qed.

(** Alignment of a mantissa to a smaller exponent keeps the value. *)
Lemma shl_align_value (m : positive) (e e0 : Z) :
  (F2Q (Zpos (fst (shl_align m e e0))) (snd (shl_align m e e0)) == F2Q (Zpos m) e)%Q.
Proof.
  unfold shl_align. destruct (e0 - e) as [|d|d] eqn:Ed; cbn [fst snd]; try reflexivity.
  rewrite pos_iter_xO, F2Q_shift by lia.
  replace (e0 + Zpos d) with e by lia. reflexivity.
Qed.

Lemma shl_align_fst (m : positive) (e e0 : Z) :
  e0 <= e -> (F2Q (Zpos (fst (shl_align m e e0))) e0 == F2Q (Zpos m) e)%Q.
Proof.
  intros Hle. pose proof (shl_align_value m e e0) as Hv.
  unfold shl_align in *. destruct (e0 - e) as [|d|d] eqn:Ed; cbn [fst snd] in *.
  - now replace e0 with e by lia.
  - lia.
  - exact Hv.
Qed.

Lemma binary_round_error (s : bool) (m : positive) (e : Z) :
  (F2Q (Zpos m) e < bpow 41)%Q ->
  exists a : Q,
    is_finite (binary_round prec emax s m e)
    /\ (to_Q (binary_round prec emax s m e) == if s then - a else a)%Q
    /\ (- (1 # 1024) <= a - F2Q (Zpos m) e <= 1 # 1024)%Q.
Proof.
  intros Hb. unfold binary_round.
  pose proof (shl_align_value m e (fexp prec emax (Zpos (digits2_pos m) + e))) as Hv.
  destruct (shl_align m e (fexp prec emax (Zpos (digits2_pos m) + e))) as [mz ez].
  cbn [fst snd] in Hv.
  destruct (binary_round_aux_error s mz ez) as (a & Hf & Ha & Herr).
  - now rewrite Hv.
  - exists a. rewrite Hv in Herr. now repeat split.
Qed.

(** The subtraction of two moderate floats is zero or finite and within
    2^-10 of the difference of their values. *)
Lemma SFsub_error (f i : b64) :
  moderate f -> moderate i ->
  is_finite (SFsub prec emax f i)
  /\ (Qabs (to_Q (SFsub prec emax f i) - (to_Q f - to_Q i)) <= 1 # 1024)%Q.
Proof.
  intros [Hff Hfb] [Hif Hib].
  change (inject_Z (2 ^ 39)) with (549755813888 # 1)%Q in Hfb, Hib.
  pose proof bpow_41 as H41.
  change (inject_Z (2 ^ 41)) with (2199023255552 # 1)%Q in H41.
  destruct f as [sf|sf| |sf mf ef]; try contradiction;
    destruct i as [si|si| |si mi ei]; try contradiction.
  - split; [destruct sf, si; exact I|].
    apply Qabs_Qle_condition. destruct sf, si; cbn; lra.
  - split; [exact I|]. cbn [SFsub].
    apply Qabs_Qle_condition. rewrite !to_Q_finite.
    cbn [to_Q]. destruct si; cbn [negb]; lra.
  - split; [exact I|]. cbn [SFsub].
    apply Qabs_Qle_condition. cbn [to_Q]. lra.
  - cbn [SFsub].
    set (ez := Z.min ef ei).
    pose proof (shl_align_fst mf ef ez ltac:(subst ez; lia)) as Hvf.
    pose proof (shl_align_fst mi ei ez ltac:(subst ez; lia)) as Hvi.
    set (mf' := fst (shl_align mf ef ez)) in *.
    set (mi' := fst (shl_align mi ei ez)) in *.
    set (z := cond_Zopp sf (Zpos mf') - cond_Zopp si (Zpos mi')).
    assert (Hz : (F2Q z ez == to_Q (S754_finite sf mf ef) - to_Q (S754_finite si mi ei))%Q).
    { subst z. rewrite F2Q_sub, !to_Q_finite.
      destruct sf, si; cbn [cond_Zopp]; rewrite ?F2Q_opp, Hvf, Hvi; reflexivity. }
    apply Qabs_Qlt_condition in Hfb, Hib.
    destruct z as [|p|p] eqn:Ez; cbn [binary_normalize].
    + split; [exact I|]. apply Qabs_Qle_condition.
      rewrite F2Q_zero in Hz. change (to_Q (S754_zero false)) with 0%Q. lra.
    + destruct (binary_round_error false p ez) as (a & Hf & Ha & Herr); [lra|].
      split; [exact Hf|]. apply Qabs_Qle_condition. rewrite Ha. lra.
    + change (Zneg p) with (- Zpos p) in Hz. rewrite F2Q_opp in Hz.
      destruct (binary_round_error true p ez) as (a & Hf & Ha & Herr); [lra|].
      split; [exact Hf|]. apply Qabs_Qle_condition. rewrite Ha. lra.
Qed.

(** The first step of the rounding of a mantissa at an exponent of -11 at
    most gives the floor of the value at such an exponent. *)
Lemma shr_fexp_floor (m : positive) (e : Z) (l : location) :
  (F2Q (Zpos m) e < bpow 42)%Q -> e <= -11 ->
  let p := shr_fexp prec emax (Zpos m) e l in
  snd p <= -11 /\ 0 <= shr_m (fst p)
  /\ (F2Q (shr_m (fst p)) (snd p) <= F2Q (Zpos m) e)%Q
  /\ (F2Q (Zpos m) e < F2Q (shr_m (fst p) + 1) (snd p))%Q.
Proof.
  intros Hb He p. subst p.
  destruct (shr_fexp_value m e l Hb) as [Hid | H]; [|exact H].
  rewrite Hid. cbn [fst snd]. rewrite shr_record_of_loc_m.
  split; [exact He|]. split; [lia|]. split; [apply Qle_refl|].
  apply F2Q_lt. lia.
Qed.

(** The rounding of a truncated mantissa at an exponent of -11 at most,
    whatever was truncated: the result is within 2^-10 of the mantissa's
    value. *)
Lemma binary_round_aux_floor_error (s : bool) (m : positive) (e : Z) (l : location) :
  (F2Q (Zpos m) e < bpow 41)%Q -> e <= -11 ->
  exists a : Q,
    is_finite (binary_round_aux prec emax s (Zpos m) e l)
    /\ (to_Q (binary_round_aux prec emax s (Zpos m) e l) == if s then - a else a)%Q
    /\ (- (1 # 1024) <= a - F2Q (Zpos m) e <= 1 # 1024)%Q.
Proof.
  intros Hb He.
  pose proof bpow_41 as H41. pose proof bpow_42 as H42.
  change (inject_Z (2 ^ 41)) with (2199023255552 # 1)%Q in H41.
  change (inject_Z (2 ^ 42)) with (4398046511104 # 1)%Q in H42.
  assert (Hb42 : (F2Q (Zpos m) e < bpow 42)%Q) by lra.
  assert (Hv0 : (0 <= F2Q (Zpos m) e)%Q).
  { rewrite <- (F2Q_zero e). apply F2Q_le. lia. }
  assert (Hfin : forall x, x <= -11 -> (x <=? emax - prec) = true).
  { intros x Hx. apply Z.leb_le. unfold emax, prec. lia. }
  unfold binary_round_aux.
  destruct (shr_fexp_floor m e l Hb42 He) as (He1 & Hm1 & Hlo & Hhi).
  destruct (shr_fexp prec emax (Zpos m) e l) as [mrs1 e1] eqn:E1.
  cbn [fst snd] in He1, Hm1, Hlo, Hhi.
  pose proof (round_nearest_even_range (shr_m mrs1) (loc_of_shr_record mrs1)) as Hr.
  set (m2 := round_nearest_even (shr_m mrs1) (loc_of_shr_record mrs1)) in *.
  assert (Hbe1 : (bpow e1 <= 1 # 2048)%Q).
  { rewrite <- bpow_m11. now apply bpow_le. }
  pose proof (bpow_pos e1) as Hp1.
  rewrite F2Q_succ in Hhi.
  assert (Hm2lo : (F2Q (shr_m mrs1) e1 <= F2Q m2 e1)%Q) by (apply F2Q_le; lia).
  assert (Hm2hi : (F2Q m2 e1 <= F2Q (shr_m mrs1) e1 + bpow e1)%Q).
  { rewrite <- F2Q_succ. apply F2Q_le. lia. }
  destruct m2 as [|p2|p2] eqn:Em2; [| |lia].
  - pose proof (shr_fexp_zero e1 loc_Exact) as Hz.
    destruct (shr_fexp prec emax 0 e1 loc_Exact) as [mrs2 e2].
    cbn [fst] in Hz. rewrite Hz.
    exists 0%Q. split; [exact I|]. split; [now apply to_Q_zero|].
    rewrite F2Q_zero in Hm2lo, Hm2hi. lra.
  - assert (Hb2 : (F2Q (Zpos p2) e1 < bpow 42)%Q) by lra.
    destruct (shr_fexp_floor p2 e1 loc_Exact Hb2 He1) as (He2 & Hm3 & Hlo2 & Hhi2).
    destruct (shr_fexp prec emax (Zpos p2) e1 loc_Exact) as [mrs2 e2] eqn:E2.
    cbn [fst snd] in He2, Hm3, Hlo2, Hhi2.
    assert (Hbe2 : (bpow e2 <= 1 # 2048)%Q).
    { rewrite <- bpow_m11. now apply bpow_le. }
    pose proof (bpow_pos e2) as Hp2.
    rewrite F2Q_succ in Hhi2.
    destruct (shr_m mrs2) as [|p3|p3] eqn:Em3; [| |lia].
    + exists 0%Q. split; [exact I|]. split; [now apply to_Q_zero|].
      rewrite F2Q_zero in Hlo2, Hhi2. lra.
    + rewrite (Hfin e2 He2). exists (F2Q (Zpos p3) e2).
      split; [exact I|]. split; [apply to_Q_finite | lra].
Qed.

Lemma F2Q_scale (k m e : Z) : (F2Q (k * m) e == inject_Z k * F2Q m e)%Q.
Proof. unfold F2Q. rewrite inject_Z_mult. ring. Qed.

(** The quotient by 100 of a positive integer below 2^47, before its
    rounding: a positive mantissa at an exponent of -13 at most, the floor
    of the quotient. *)
Lemma div_core_100 (p : positive) :
  Zpos p < 2 ^ 47 ->
  exists (q : positive) (e : Z) (l : location),
    SFdiv_core_binary prec emax (Zpos p) 0 100 0 = (Zpos q, e, l)
    /\ e <= -13
    /\ (100 * F2Q (Zpos q) e <= inject_Z (Zpos p))%Q
    /\ (inject_Z (Zpos p) < 100 * F2Q (Zpos q + 1) e)%Q.
Proof.
  intros Hp.
  pose proof (digits2_pos_lower p) as Hl.
  assert (Hd : Zpos (digits2_pos p) <= 47).
  { destruct (Z.le_gt_cases (Zpos (digits2_pos p)) 47) as [H|H]; [exact H|].
    assert (2 ^ 47 <= 2 ^ (Zpos (digits2_pos p) - 1))
      by (apply Z.pow_le_mono_r; lia).
    lia. }
  unfold SFdiv_core_binary.
  change (Zdigits2 100) with 7. cbn [Zdigits2].
  set (d := Zpos (digits2_pos p)) in *.
  assert (Ee : Z.min (fexp prec emax (d + 0 - (7 + 0))) (0 - 0) = d - 60).
  { unfold fexp, emin, prec, emax. lia. }
  rewrite Ee.
  assert (Es : 0 - 0 - (d - 60) = 60 - d) by lia.
  rewrite Es.
  assert (Hs : 0 < 60 - d) by lia.
  destruct (60 - d) as [|k|k] eqn:Ek; try lia.
  rewrite Z.shiftl_mul_pow2 by lia.
  assert (Hk : 0 < 2 ^ Zpos k) by (apply Z.pow_pos_nonneg; lia).
  pose proof (Z_div_mod (Zpos p * 2 ^ Zpos k) 100 ltac:(lia)) as Hdm.
  destruct (Z.div_eucl (Zpos p * 2 ^ Zpos k) 100) as [q r].
  destruct Hdm as [Hq Hr].
  assert (Hbig : 2 ^ 59 <= Zpos p * 2 ^ Zpos k).
  { replace 59 with ((d - 1) + Zpos k) by lia.
    rewrite Z.pow_add_r by lia. apply Z.mul_le_mono_nonneg_r; lia. }
  assert (Hq0 : 0 < q).
  { change (2 ^ 59) with 576460752303423488 in Hbig. lia. }
  destruct q as [|q|q]; try lia.
  exists q, (d - 60), (new_location 100 r).
  split; [reflexivity|]. split; [lia|].
  assert (Hn : (F2Q (Zpos p * 2 ^ Zpos k) (d - 60) == inject_Z (Zpos p))%Q).
  { rewrite F2Q_shift by lia. replace (d - 60 + Zpos k) with 0 by lia.
    unfold F2Q, bpow. change (2 ^ 0)%Q with 1%Q. ring. }
  pose proof (F2Q_scale 100 (Zpos q) (d - 60)) as Hlo.
  pose proof (F2Q_scale 100 (Zpos q + 1) (d - 60)) as Hhi.
  change (inject_Z 100) with 100%Q in Hlo, Hhi.
  split.
  - rewrite <- Hlo, <- Hn. apply F2Q_le. lia.
  - rewrite <- Hhi, <- Hn. apply F2Q_lt. lia.
Qed.

(** The float quotient by 100 of a positive integer below 2^47 is finite
    and, taken 100 times, within 1/8 of the integer. *)
Lemma truediv_100_error (p : positive) :
  Zpos p < 2 ^ 47 ->
  is_finite (truediv (Zpos p) 100)
  /\ (- (1 # 8) <= 100 * to_Q (truediv (Zpos p) 100) - inject_Z (Zpos p) <= 1 # 8)%Q.
Proof.
  intros Hp.
  destruct (div_core_100 p Hp) as (q & e & l & Hc & He & Hlo & Hhi).
  unfold truediv. cbn [Z.abs Z.ltb Z.compare xorb].
  rewrite Hc.
  assert (H2 : (inject_Z (Zpos p) < inject_Z (2 ^ 47))%Q) by (rewrite <- Zlt_Qlt; exact Hp).
  change (inject_Z (2 ^ 47)) with (140737488355328 # 1)%Q in H2.
  pose proof bpow_41 as H41.
  change (inject_Z (2 ^ 41)) with (2199023255552 # 1)%Q in H41.
  rewrite F2Q_succ in Hhi.
  assert (Hbe : (bpow e <= 1 # 8192)%Q).
  { change (1 # 8192)%Q with (bpow (-13)). apply bpow_le. lia. }
  pose proof (bpow_pos e) as Hpe.
  destruct (binary_round_aux_floor_error false q e l) as (a & Hf & Ha & Herr);
    [lra | lia |].
  split; [exact Hf|]. rewrite Ha. lra.
Qed.

(** A rational within 1/4 of an integer rounds to it. *)
Lemma round_half_even_near (q : Q) (n : Z) :
  (- (1 # 4) <= q - inject_Z n <= 1 # 4)%Q -> round_half_even q = n.
Proof.
  intros Hq. pose proof (RoundFacts.round_half_even_error q) as Hr.
  set (k := round_half_even q) in *.
  assert (Hk : (inject_Z (k - n) == inject_Z k - inject_Z n)%Q).
  { replace (k - n) with (k + - n) by lia.
    rewrite inject_Z_plus, inject_Z_opp. ring. }
  assert (Hlt : -1 < k - n < 1).
  { split; rewrite Zlt_Qlt, Hk; change (inject_Z (-1)) with (-1 # 1)%Q;
      change (inject_Z 1) with (1 # 1)%Q; lra. }
  lia.
Qed.

(** A float is its absolute value with its sign. *)
Lemma to_Q_sign (x : b64) :
  (to_Q x == if sign_bit x then - Qabs (to_Q x) else Qabs (to_Q x))%Q.
Proof.
  destruct x as [s|s| |s m e]; try (destruct s; reflexivity); try reflexivity.
  assert (Hv : (0 <= F2Q (Zpos m) e)%Q).
  { rewrite <- (F2Q_zero e). apply F2Q_le. lia. }
  pose proof (to_Q_finite s m e) as Hq. cbn [sign_bit].
  destruct s; rewrite Hq.
  - rewrite Qabs_opp, Qabs_pos by exact Hv. reflexivity.
  - rewrite Qabs_pos by exact Hv. reflexivity.
Qed.

(** The hundredths of a float are within one half of 100 times its
    value. *)
Lemma hundredths_error (x : b64) :
  (- (1 # 2) <= inject_Z (hundredths x) - 100 * to_Q x <= 1 # 2)%Q.
Proof.
  pose proof (RoundFacts.round_half_even_error (Qabs (to_Q x) * 100)) as Hr.
  pose proof (to_Q_sign x) as Hs. unfold hundredths.
  set (n := round_half_even (Qabs (to_Q x) * 100)) in *.
  destruct (sign_bit x).
  - rewrite inject_Z_opp. lra.
  - lra.
Qed.

(** [round(x, 2)] is the float nearest to the hundredths of [x] over 100. *)
Lemma round2_of_hundredths (x : b64) :
  is_finite x -> round2 x = of_hundredths (sign_bit x) (Z.abs (hundredths x)).
Proof.
  destruct x as [s|s| |s m e]; try contradiction; intros _.
  - destruct s; reflexivity.
  - unfold round2, of_hundredths, hundredths. cbn [sign_bit].
    assert (Hn : 0 <= round_half_even (Qabs (to_Q (S754_finite s m e)) * 100)).
    { apply MetricsFacts.round_half_even_nonneg.
      apply Qmult_le_0_compat; [apply Qabs_nonneg | discriminate]. }
    destruct s; [rewrite Z.abs_opp|]; now rewrite Z.abs_eq by exact Hn.
Qed.

Lemma to_Q_opp (t : b64) : (to_Q (SFopp t) == - to_Q t)%Q.
Proof.
  destruct t as [s|s| |s m e]; try reflexivity.
  cbn [SFopp]. rewrite !to_Q_finite. destruct s; cbn [negb]; ring.
Qed.

Lemma sign_bit_opp (t : b64) : is_finite t -> sign_bit (SFopp t) = negb (sign_bit t).
Proof. destruct t; try contradiction; reflexivity. Qed.

(** A float that is, taken 100 times, within 1/8 of a positive integer has
    this integer for hundredths, and so has its opposite, negated. *)
Lemma hundredths_near (t : b64) (p : positive) :
  is_finite t ->
  (- (1 # 8) <= 100 * to_Q t - inject_Z (Zpos p) <= 1 # 8)%Q ->
  hundredths t = Zpos p /\ hundredths (SFopp t) = Zneg p.
Proof.
  intros Hf Ht.
  assert (Hp : (1 <= inject_Z (Zpos p))%Q).
  { change 1%Q with (inject_Z 1). rewrite <- Zle_Qle. lia. }
  pose proof (to_Q_sign t) as Hs. pose proof (to_Q_opp t) as Ho.
  pose proof (Qabs_nonneg (to_Q t)) as Ha.
  pose proof (Qabs_opp (to_Q t)) as Hao.
  assert (Hao' : (Qabs (to_Q (SFopp t)) == Qabs (to_Q t))%Q) by (rewrite Ho; exact Hao).
  unfold hundredths. rewrite (sign_bit_opp t Hf).
  destruct (sign_bit t); [lra|]. cbn [negb].
  split.
  - apply round_half_even_near. lra.
  - rewrite (round_half_even_near (Qabs (to_Q (SFopp t)) * 100) (Zpos p)) by lra.
    reflexivity.
Qed.

(** Rounding to 2 decimals keeps the hundredths: the float that [round]
    returns, read in hundredths, is the whole number it was made from. *)
Lemma hundredths_round2 (x : b64) :
  is_finite x -> (Qabs (to_Q x) <= inject_Z (2 ^ 40) + 1)%Q ->
  hundredths (round2 x) = hundredths x.
Proof.
  intros Hf Hb. destruct x as [s|s| |s m e]; try contradiction; try reflexivity.
  change (inject_Z (2 ^ 40)) with (1099511627776 # 1)%Q in Hb.
  unfold round2. unfold hundredths at 2. cbn [sign_bit].
  pose proof (RoundFacts.round_half_even_error (Qabs (to_Q (S754_finite s m e)) * 100)) as Hr.
  pose proof (Qabs_nonneg (to_Q (S754_finite s m e))) as Ha.
  assert (Hn0 : 0 <= round_half_even (Qabs (to_Q (S754_finite s m e)) * 100)).
  { apply MetricsFacts.round_half_even_nonneg.
    apply Qmult_le_0_compat; [exact Ha | discriminate]. }
  remember (round_half_even (Qabs (to_Q (S754_finite s m e)) * 100)) as n eqn:En.
  assert (Hn : n < 2 ^ 47).
  { rewrite Zlt_Qlt. change (inject_Z (2 ^ 47)) with (140737488355328 # 1)%Q. lra. }
  destruct n as [|p|p]; [| |lia].
  - destruct s; reflexivity.
  - destruct (truediv_100_error p Hn) as [Ht He].
    destruct (hundredths_near _ p Ht He) as [H1 H2].
    destruct s; assumption.
Qed.

(** The float that [round] returns is, taken 100 times, within 1/8 of the
    hundredths. *)
Lemma round2_error (x : b64) :
  is_finite x -> (Qabs (to_Q x) <= inject_Z (2 ^ 40) + 1)%Q ->
  (- (1 # 8) <= 100 * to_Q (round2 x) - inject_Z (hundredths x) <= 1 # 8)%Q.
Proof.
  intros Hf Hb. destruct x as [s|s| |s m e]; try contradiction.
  - destruct s; vm_compute; split; discriminate.
  - change (inject_Z (2 ^ 40)) with (1099511627776 # 1)%Q in Hb.
    unfold round2, hundredths. cbn [sign_bit].
    pose proof (RoundFacts.round_half_even_error (Qabs (to_Q (S754_finite s m e)) * 100)) as Hr.
    pose proof (Qabs_nonneg (to_Q (S754_finite s m e))) as Ha.
    assert (Hn0 : 0 <= round_half_even (Qabs (to_Q (S754_finite s m e)) * 100)).
    { apply MetricsFacts.round_half_even_nonneg.
      apply Qmult_le_0_compat; [exact Ha | discriminate]. }
    remember (round_half_even (Qabs (to_Q (S754_finite s m e)) * 100)) as n eqn:En.
    assert (Hn : n < 2 ^ 47).
    { rewrite Zlt_Qlt. change (inject_Z (2 ^ 47)) with (140737488355328 # 1)%Q. lra. }
    destruct n as [|p|p]; [| |lia].
    + destruct s; vm_compute; split; discriminate.
    + destruct (truediv_100_error p Hn) as [Ht He].
      destruct s; [|exact He].
      pose proof (to_Q_opp (truediv (Zpos p) 100)) as Ho.
      change (inject_Z (- Zpos p)) with (inject_Z (- (Zpos p))).
      rewrite inject_Z_opp. lra.
Qed.

(** The hundredths of a difference of two moderate floats and the
    difference of their hundredths differ by one at most. *)
Lemma hundredths_difference (f i : b64) :
  moderate f -> moderate i ->
  Z.abs (hundredths (SFsub prec emax f i) - (hundredths f - hundredths i)) <= 1.
Proof.
  intros Hf Hi.
  destruct (SFsub_error f i Hf Hi) as [_ He]. apply Qabs_Qle_condition in He.
  pose proof (hundredths_error (SFsub prec emax f i)) as Hd.
  pose proof (hundredths_error f) as Hhf. pose proof (hundredths_error i) as Hhi.
  set (kd := hundredths (SFsub prec emax f i)) in *.
  set (kf := hundredths f) in *. set (ki := hundredths i) in *.
  assert (Hk : (inject_Z (kd - (kf - ki)) == inject_Z kd - (inject_Z kf - inject_Z ki))%Q).
  { replace (kd - (kf - ki)) with (kd + (- kf + ki)) by lia.
    rewrite !inject_Z_plus, inject_Z_opp. ring. }
  assert (Hlt : -2 < kd - (kf - ki) < 2).
  { split; rewrite Zlt_Qlt, Hk; change (inject_Z (-2)) with (-2 # 1)%Q;
      change (inject_Z 2) with (2 # 1)%Q; lra. }
  lia.
Qed.

End B64Rounding.

(** C5, as stated, fails in binary64: on six sentences of 1, 1, 1, 2, 1 and
    3 words that are merged two by two, the metrics are the floats of 0.58,
    0.67 and 0.08, and [improvement] differs from
    [final_burstiness - initial_burstiness] by more than 0.01, both in the
    float comparison and for the exact values of the three floats. *)
Lemma improvement_tolerance_counterexample :
  let m := metrics (fst (process (F:=B64.b64) PeriodSegmenter.nlp ScriptedRandom.rng
                           ScriptedRandom.random ScriptedRandom.randbelow
                           "a. b. c. d e. f. g h i." [])) in
  initial_burstiness m = B64.truediv 58 100
  /\ final_burstiness m = B64.truediv 67 100
  /\ improvement m = B64.truediv 8 100
  /\ SFleb (SFabs (SFsub B64.prec B64.emax (improvement m)
                     (SFsub B64.prec B64.emax (final_burstiness m)
                                              (initial_burstiness m))))
            (B64.truediv 1 100) = false
  /\ (1 # 100 < Qabs (B64.to_Q (improvement m)
                      - (B64.to_Q (final_burstiness m)
                         - B64.to_Q (initial_burstiness m))))%Q.
Proof. vm_compute. repeat split. Qed.

(** C5, amended. In the result of [process] the three metrics are
    [round(x, 2)] of the initial burstiness, of the final burstiness and of
    their float difference. Whenever the two burstiness values are zero or
    finite and below 2^39 in binary64: the difference is finite and within
    2^-10 of the exact difference; each metric is the float nearest to a
    whole number of hundredths over 100, the whole number nearest to 100
    times the unrounded value, and read back in hundredths the metric gives
    this whole number, from which 100 times its value differs by 1/8 at
    most; and [improvement] equals [final_burstiness - initial_burstiness]
    within 0.01 when the three metrics are read in hundredths: the whole
    numbers differ by one at most. The values of the three floats satisfy
    the bound 0.01375, not the bound 0.01. *)
Theorem improvement_within_tolerance
    (nlp : string -> list string) (rng : Type) (random : rng -> Q * rng)
    (randbelow : nat -> rng -> nat * rng) (text : string) (g : rng) :
  let r := fst (process (F:=B64.b64) nlp rng random randbelow text g) in
  let initial := analyze_burstiness (F:=B64.b64) nlp text in
  let final := analyze_burstiness (F:=B64.b64) nlp (humanized r) in
  let difference := SFsub B64.prec B64.emax final initial in
  let m := metrics r in
  B64Sign.moderate initial -> B64Sign.moderate final ->
  m = {| initial_burstiness := B64.round2 initial;
         final_burstiness := B64.round2 final;
         improvement := B64.round2 difference |}
  /\ B64Sign.is_finite difference
  /\ (Qabs (B64.to_Q difference - (B64.to_Q final - B64.to_Q initial)) <= 1 # 1024)%Q
  /\ (forall x, In x [initial; final; difference] ->
      B64.round2 x
      = B64Sign.of_hundredths (B64Sign.sign_bit x) (Z.abs (B64Sign.hundredths x))
      /\ (- (1 # 2) <= inject_Z (B64Sign.hundredths x) - 100 * B64.to_Q x <= 1 # 2)%Q
      /\ B64Sign.hundredths (B64.round2 x) = B64Sign.hundredths x
      /\ (- (1 # 8) <= 100 * B64.to_Q (B64.round2 x) - inject_Z (B64Sign.hundredths x)
          <= 1 # 8)%Q)
  /\ (Z.abs (B64Sign.hundredths (improvement m)
             - (B64Sign.hundredths (final_burstiness m)
                - B64Sign.hundredths (initial_burstiness m))) <= 1)%Z
  /\ (Qabs (B64.to_Q (improvement m)
            - (B64.to_Q (final_burstiness m) - B64.to_Q (initial_burstiness m)))
      <= 11 # 800)%Q.
Proof.
  intros r initial final difference m Hi Hf.
  pose proof (process_metrics nlp rng random randbelow (F:=B64.b64) text g) as Hm.
  fold r in Hm. cbv zeta in Hm. fold initial final in Hm.
  change (fsub final initial) with difference in Hm.
  change (@fround2 B64.b64 _) with B64.round2 in Hm. fold m in Hm.
  destruct (B64Rounding.SFsub_error final initial Hf Hi) as [Hd He].
  fold difference in Hd, He.
  assert (Hb : forall x, In x [initial; final; difference] ->
             B64Sign.is_finite x
             /\ (Qabs (B64.to_Q x) <= inject_Z (2 ^ 40) + 1)%Q).
  { destruct Hi as [Hi1 Hi2], Hf as [Hf1 Hf2].
    change (inject_Z (2 ^ 39)) with (549755813888 # 1)%Q in Hi2, Hf2.
    change (inject_Z (2 ^ 40)) with (1099511627776 # 1)%Q.
    intros x [<- | [<- | [<- | []]]]; (split; [assumption|]); try lra.
    apply Qabs_Qlt_condition in Hi2, Hf2. apply Qabs_Qle_condition in He.
    apply Qabs_Qle_condition. lra. }
  assert (Hx : forall x, In x [initial; final; difference] ->
      B64.round2 x
      = B64Sign.of_hundredths (B64Sign.sign_bit x) (Z.abs (B64Sign.hundredths x))
      /\ (- (1 # 2) <= inject_Z (B64Sign.hundredths x) - 100 * B64.to_Q x <= 1 # 2)%Q
      /\ B64Sign.hundredths (B64.round2 x) = B64Sign.hundredths x
      /\ (- (1 # 8) <= 100 * B64.to_Q (B64.round2 x) - inject_Z (B64Sign.hundredths x)
          <= 1 # 8)%Q).
  { intros x Hin. destruct (Hb x Hin) as [Hxf Hxb].
    split; [now apply B64Rounding.round2_of_hundredths|].
    split; [apply B64Rounding.hundredths_error|].
    split; [now apply B64Rounding.hundredths_round2
           | now apply B64Rounding.round2_error]. }
  pose proof (B64Rounding.hundredths_difference final initial Hf Hi) as Hh.
  fold difference in Hh.
  destruct (Hx initial ltac:(simpl; tauto)) as (_ & _ & Hri & Rei).
  destruct (Hx final ltac:(simpl; tauto)) as (_ & _ & Hrf & Ref).
  destruct (Hx difference ltac:(simpl; tauto)) as (_ & _ & Hrd & Red).
  split; [exact Hm|]. split; [exact Hd|]. split; [exact He|]. split; [exact Hx|].
  rewrite Hm. cbn [initial_burstiness final_burstiness improvement].
  rewrite Hri, Hrf, Hrd. split; [exact Hh|].
  set (kd := B64Sign.hundredths difference) in *.
  set (kf := B64Sign.hundredths final) in *.
  set (ki := B64Sign.hundredths initial) in *.
  assert (Hk : (inject_Z (kd - (kf - ki)) == inject_Z kd - (inject_Z kf - inject_Z ki))%Q).
  { replace (kd - (kf - ki))%Z with (kd + (- kf + ki))%Z by lia.
    rewrite !inject_Z_plus, inject_Z_opp. ring. }
  assert (Hq : (-1 <= inject_Z (kd - (kf - ki)) <= 1)%Q).
  { change (-1)%Q with (inject_Z (-1)). change 1%Q with (inject_Z 1).
    rewrite <- !Zle_Qle. lia. }
  apply Qabs_Qle_condition. lra.
Qed.

(** C5 (amended) on the text of the counterexample: the metrics read in
    hundredths are 58, 67 and 8. *)
Lemma improvement_within_tolerance_witness :
  let m := metrics (fst (process (F:=B64.b64) PeriodSegmenter.nlp ScriptedRandom.rng
                           ScriptedRandom.random ScriptedRandom.randbelow
                           "a. b. c. d e. f. g h i." [])) in
  (B64Sign.hundredths (initial_burstiness m) = 58
   /\ B64Sign.hundredths (final_burstiness m) = 67
   /\ B64Sign.hundredths (improvement m) = 8)%Z
  /\ (Z.abs (B64Sign.hundredths (improvement m)
             - (B64Sign.hundredths (final_burstiness m)
                - B64Sign.hundredths (initial_burstiness m))) <= 1)%Z
  /\ (Qabs (B64.to_Q (improvement m)
            - (B64.to_Q (final_burstiness m) - B64.to_Q (initial_burstiness m)))
      <= 11 # 800)%Q.
Proof.
  destruct (improvement_within_tolerance PeriodSegmenter.nlp ScriptedRandom.rng
              ScriptedRandom.random ScriptedRandom.randbelow
              "a. b. c. d e. f. g h i." []) as (_ & _ & _ & _ & Hh & Hq).
  - split; [exact I | reflexivity].
  - split; [exact I | reflexivity].
  - split; [vm_compute; repeat split | split; [exact Hh | exact Hq]].
Defined.
